(** * slpk2obj: node-tree traversal and texture-atlas repacking

    A shallow embedding of [src/slpk/tools/slpk2obj.cpp]
    ([measureMesh], [remap], [rebuild], [write]) together with the
    properties stated about them.

    Conventions of the embedding.
    - C++ [int] values are integers of [Z]; signed overflow is undefined in
      C++ and is not given a meaning here.  [a % b] on [int] is the
      truncated remainder [Z.rem]; a zero divisor is a fault.
    - Unsigned indices ([Face::imageId], [ta], [tb], [tc]) are [nat].
    - [double] values are rationals of [Q]: every finite [double] is a
      rational, and [std::min]/[std::max] on them are exact.  NaN and the
      infinities are not represented.  Numeric equality is [Qeq].
    - [std::vector] is [list]; [v[i]] is a checked lookup whose failure is
      the fault [OutOfBounds] (undefined behaviour in the source).
    - Code of other libraries (math, geometry, imgproc, geo, OpenCV, the
      archive reader) enters through the classes [Geo], [Texturing] and
      [Archive]. *)

From Stdlib Require Import Ascii String.
From Stdlib Require Import List ZArith QArith Qround Lia Lqa Bool Permutation.
Import ListNotations.

Local Open Scope Z_scope.

(** ** Faults and the result monad *)

Inductive fault : Type :=
| OutOfBounds      (* an index outside its container *)
| DivByZero        (* integer remainder by zero *)
| SignedOverflow   (* a loop counter running past the end of [int] *)
| DecodeError.     (* [std::runtime_error] thrown by [stream2mat] *)

Inductive result (A : Type) : Type :=
| Ok (a : A)
| Fault (f : fault).

Arguments Ok {A} a.
Arguments Fault {A} f.

Definition bind {A B : Type} (r : result A) (k : A -> result B) : result B :=
  match r with
  | Ok a => k a
  | Fault f => Fault f
  end.

Notation "x <- c ;; k" := (bind c (fun x => k))
  (at level 61, c at next level, right associativity).
Notation "' pat <- c ;; k" := (bind c (fun x => match x with pat => k end))
  (at level 61, pat pattern, c at next level, right associativity).

Definition is_ok {A : Type} (r : result A) : bool :=
  match r with Ok _ => true | Fault _ => false end.

(** [for (x : xs) body] threading a state through a fallible body. *)
Fixpoint foldM {A S : Type} (body : S -> A -> result S) (xs : list A) (s : S)
  : result S :=
  match xs with
  | [] => Ok s
  | x :: rest => s' <- body s x ;; foldM body rest s'
  end.

(** ** Vectors *)

Definition at_ {A : Type} (v : list A) (i : nat) : result A :=
  match nth_error v i with
  | Some a => Ok a
  | None => Fault OutOfBounds
  end.

Fixpoint set_nth {A : Type} (v : list A) (i : nat) (a : A) : list A :=
  match v, i with
  | [], _ => []
  | _ :: rest, O => a :: rest
  | x :: rest, S i' => x :: set_nth rest i' a
  end.

(** [v[i] = a]. *)
Definition assign {A : Type} (v : list A) (i : nat) (a : A) : result (list A) :=
  if (i <? length v)%nat then Ok (set_nth v i a) else Fault OutOfBounds.

(** ** Geometry data *)

Record Point2d : Type := mkPoint2d { p2x : Q; p2y : Q }.
Record Point3d : Type := mkPoint3d { p3x : Q; p3y : Q; p3z : Q }.
Record Point2i : Type := mkPoint2i { pix : Z; piy : Z }.
Record Size2 : Type := mkSize2 { width : Z; height : Z }.
Record Size2f : Type := mkSize2f { fwidth : Q; fheight : Q }.

Record Extents2 : Type := mkExtents2 { ll : Point2d; ur : Point2d }.

Definition point_eq (p q : Point2d) : Prop :=
  p2x p == p2x q /\ p2y p == p2y q.

Definition extents_eq (e f : Extents2) : Prop :=
  point_eq (ll e) (ll f) /\ point_eq (ur e) (ur f).

(** [std::numeric_limits<double>::max()] and [lowest()]. *)
Definition DBL_MAX : Q := inject_Z (2 ^ 1024 - 2 ^ 971).
Definition DBL_LOWEST : Q := - DBL_MAX.

(** [std::min(a, b)] is [(b < a) ? b : a]; [std::max(a, b)] is
    [(a < b) ? b : a]. *)
Definition dmin (a b : Q) : Q := if Qle_bool a b then a else b.
Definition dmax (a b : Q) : Q := if Qle_bool b a then a else b.

(** Modelled from the spec: the [math::Extents2] accumulator of the math
    library is not under src/.  The spec describes it as an axis-aligned
    bounding box that is invalid (empty) until the first point is merged;
    the library represents the invalid box by the corners
    [(max, max)] and [(lowest, lowest)]. *)
Definition InvalidExtents : Extents2 :=
  mkExtents2 (mkPoint2d DBL_MAX DBL_MAX) (mkPoint2d DBL_LOWEST DBL_LOWEST).

(** Modelled from the spec: [math::update(extents, point)] of the math
    library is not under src/; merging a point extends the box to cover it,
    lowering [ll] and raising [ur] coordinate by coordinate. *)
Definition update (e : Extents2) (p : Point2d) : Extents2 :=
  mkExtents2
    (mkPoint2d (dmin (p2x (ll e)) (p2x p)) (dmin (p2y (ll e)) (p2y p)))
    (mkPoint2d (dmax (p2x (ur e)) (p2x p)) (dmax (p2y (ur e)) (p2y p))).

(** [math::update(extents, Point3)] uses the planar projection. *)
Definition project (v : Point3d) : Point2d := mkPoint2d (p3x v) (p3y v).

(** Modelled from the spec: [math::size] of the math library is not under
    src/; the size of a box is [ur - ll]. *)
Definition size_of (e : Extents2) : Size2f :=
  mkSize2f (p2x (ur e) - p2x (ll e)) (p2y (ur e) - p2y (ll e)).

(** Modelled from the spec: [math::center] of the math library is not under
    src/; the center point of a box is the midpoint of its corners. *)
Definition center (e : Extents2) : Point2d :=
  mkPoint2d ((p2x (ll e) + p2x (ur e)) / 2) ((p2y (ll e) + p2y (ur e)) / 2).

(** [geometry::Face]: vertex indices, texture-coordinate indices and the
    id of the image (region) the face samples. *)
Record Face : Type := mkFace {
  fa : nat; fb : nat; fc : nat;
  ta : nat; tb : nat; tc : nat;
  imageId : nat
}.

Record Mesh : Type := mkMesh {
  vertices : list Point3d;
  tCoords : list Point2d;
  faces : list Face
}.

(** Modelled from the spec: [slpk::Region] is declared in the repository's
    [types.hpp], which is not under src/; a rectangle in 16-bit normalized
    coordinates, read through [ll] and [ur]. *)
Record Region : Type := mkRegion { rll : Point2i; rur : Point2i }.

(** Modelled from the spec: [slpk::SubMesh] ([types.hpp], not under src/)
    is a mesh with the regions of its texture that are referenced. *)
Record SubMesh : Type := mkSubMesh {
  mesh : Mesh;
  regions : list Region
}.

(** Modelled from the spec: [slpk::Node] ([types.hpp], not under src/) has
    an identifier, a level of detail, the has-geometry flag read by
    [hasGeometry()] and its geometry-data references. *)
Record Node : Type := mkNode {
  id : string;
  level : Z;
  hasGeometry : bool;
  geometryData : list string   (* href of each geometry resource *)
}.

(** [slpk::Tree::nodes], a [std::map] keyed by node id, in iteration order. *)
Definition Tree : Type := list (string * Node).

Definition INT_MAX : Z := 2 ^ 31 - 1.
Definition INT_MIN : Z := - 2 ^ 31.

(** ** Images and rectangles *)

(** [cv::Vec3b]: three 8-bit channels. *)
Definition Vec3b : Type := (Z * Z * Z)%type.

(** [cv::Vec3b()]. *)
Definition Vec3b_zero : Vec3b := (0, 0, 0).

(** [cv::Mat] with [Vec3b] elements; [data] is only meaningful inside
    [rows] x [cols]. *)
Record Mat : Type := mkMat {
  rows : Z;
  cols : Z;
  data : Z -> Z -> Vec3b
}.

Definition in_mat (m : Mat) (j i : Z) : bool :=
  (0 <=? j) && (j <? rows m) && (0 <=? i) && (i <? cols m).

(** [m.at<cv::Vec3b>(j, i)] as a read; unchecked in the source. *)
Definition mat_at (m : Mat) (j i : Z) : result Vec3b :=
  if in_mat m j i then Ok (data m j i) else Fault OutOfBounds.

(** [m(j, i) = v]; unchecked in the source. *)
Definition mat_set (m : Mat) (j i : Z) (v : Vec3b) : result Mat :=
  if in_mat m j i
  then Ok (mkMat (rows m) (cols m)
             (fun j' i' => if (j' =? j) && (i' =? i) then v else data m j' i'))
  else Fault OutOfBounds.

(** [cv::Mat_<cv::Vec3b>(h, w, v)]. *)
Definition mat_new (h w : Z) (v : Vec3b) : Mat := mkMat h w (fun _ _ => v).

(** [imgproc::tx::Patch::Rect]: integer origin and size. *)
Record Rect : Type := mkRect { point : Point2i; size : Size2 }.

(** [roarchive::IStream]: a path inside the archive and the bytes read
    from it. *)
Record IStream : Type := mkIStream { spath : string; sbytes : list Z }.

(** ** External collaborators *)

(** The coordinate conversion ([geo::CsConvertor]) and the difference
    operator applied to a converted vertex and the center point. *)
Class Geo : Type := {
  conv : Point3d -> Point3d;
  vsub : Point3d -> Point2d -> Point3d
}.

(** The archive reader: geometry and texture stream of a node. *)
Class Archive : Type := {
  loadGeometry : Node -> list SubMesh;
  texture : Node -> nat -> IStream
}.

(** The texturing library ([imgproc::tx]) and the image codec.
    [packOne ps k] is the patch at position [k] of the range once
    [imgproc::tx::pack] has placed it; [packSize ps] is the size [pack]
    returns.  No packing heuristic is assumed. *)
Class Texturing : Type := {
  Patch : Type;
  patchOfUv : Extents2 -> Patch;        (* Patch(const UvPatch&) *)
  rectOfUv : Extents2 -> Rect;          (* Patch::Rect(const UvPatch&) *)
  dst : Patch -> Rect;                  (* Patch::dst() *)
  pmap : Patch -> Point2d -> Point2d;   (* Patch::map({}, tc) *)
  packOne : list Patch -> nat -> Patch;
  packSize : list Patch -> Size2;
  imdecode : list Z -> option Mat;      (* None: no image data *)
  imageType : IStream -> string         (* extension of the stored image *)
}.

(** [imgproc::tx::UvPatch] is an extents value; its default constructor
    gives the invalid extents and [UvPatch::update] is [math::update]. *)
Definition UvPatch : Type := Extents2.

Section Model.

Context {G : Geo} {AR : Archive} {TX : Texturing}.

(** ** measureMesh *)

(** [MeasureMesh::addVertex]. *)
Definition addVertex (extents : Extents2) (v : Point3d) : Extents2 :=
  update extents (project (conv v)).

(** Modelled from the spec: [Archive::loadGeometry(loader, node)] is not
    under src/; the loader variant shares the traversal of the full one and
    receives every vertex of every mesh of the node through [addVertex]. *)
Definition loadVertices (node : Node) : list Point3d :=
  flat_map (fun sm => vertices (mesh sm)) (loadGeometry node).

(** The body of the parallel loop before its critical section: the
    node-local extents [e]. *)
Definition measureNode (node : Node) : Extents2 :=
  fold_left addVertex (loadVertices node) InvalidExtents.

(** The critical section: both corners of [e] are merged. *)
Definition mergeExtents (extents e : Extents2) : Extents2 :=
  update (update extents (ll e)) (ur e).

Definition topLevel (tree : Tree) : Z :=
  fold_left
    (fun top item =>
       if hasGeometry (snd item) then Z.min top (level (snd item)) else top)
    tree INT_MAX.

Definition collectNodes (tree : Tree) : list Node :=
  map snd
    (filter
       (fun item => (level (snd item) =? topLevel tree) && hasGeometry (snd item))
       tree).

(** The parallel loop with its critical sections taken in the order
    [nodes]. *)
Definition measureNodes (nodes : list Node) : Extents2 :=
  fold_left (fun extents node => mergeExtents extents (measureNode node))
    nodes InvalidExtents.

Definition measureMesh (tree : Tree) : Extents2 :=
  measureNodes (collectNodes tree).

(** ** remap *)

Definition remap (size coord : Z) : Q :=
  inject_Z size * (inject_Z coord / 65535).

Definition remapRegion (sz : Size2) (region : Region) : Extents2 :=
  mkExtents2
    (mkPoint2d (remap (width sz) (pix (rll region)))
               (remap (height sz) (piy (rll region))))
    (mkPoint2d (remap (width sz) (pix (rur region)))
               (remap (height sz) (piy (rur region)))).

Definition remapTc (rsize : Size2f) (tc : Point2d) : Point2d :=
  mkPoint2d (p2x tc * fwidth rsize) (p2y tc * fheight rsize).

(** ** rebuild *)

Definition stream2mat (txStream : IStream) : result Mat :=
  match imdecode (sbytes txStream) with
  | Some image => Ok image
  | None => Fault DecodeError
  end.

(** State of the first pass: the [seen] bitmap, [mesh.tCoords] (scaled in
    place by [remap]) and the UV patch of every region. *)
Record ExpandState : Type := mkExpandState {
  es_seen : list bool;
  es_tCoords : list Point2d;
  es_uvPatches : list UvPatch
}.

(** The lambda [expand]; [k] stands for the reference [uvPatch], which
    aliases [uvPatches[k]]. *)
Definition expand (k : nat) (rsize : Size2f) (index : nat) (st : ExpandState)
  : result ExpandState :=
  iseen <- at_ (es_seen st) index ;;
  if (iseen : bool) then Ok st
  else
    tc <- at_ (es_tCoords st) index ;;
    let tc' := remapTc rsize tc in
    tcs <- assign (es_tCoords st) index tc' ;;
    uvPatch <- at_ (es_uvPatches st) k ;;
    uvs <- assign (es_uvPatches st) k (update uvPatch tc') ;;
    sn <- assign (es_seen st) index true ;;
    Ok (mkExpandState sn tcs uvs).

Definition expandFace (rgs : list Extents2) (st : ExpandState) (face : Face)
  : result ExpandState :=
  region <- at_ rgs (imageId face) ;;
  let rsize := size_of region in
  _ <- at_ (es_uvPatches st) (imageId face) ;;
  st <- expand (imageId face) rsize (ta face) st ;;
  st <- expand (imageId face) rsize (tb face) st ;;
  expand (imageId face) rsize (tc face) st.

(** [tc(0) /= size.width; tc(1) /= size.height].  For a dimension that is
    zero the code divides a double by zero and gets a value that is not a
    number of [Q]; the model is meant for dimensions other than zero. *)
Definition normalize (asize : Size2) (tc : Point2d) : Point2d :=
  mkPoint2d (p2x tc / inject_Z (width asize)) (p2y tc / inject_Z (height asize)).

(** The lambda [map]: the state is the [seen] bitmap and [mesh.tCoords]. *)
Definition mapTc (asize : Size2) (patch : Patch) (index : nat)
    (st : list bool * list Point2d) : result (list bool * list Point2d) :=
  let '(seen, tcs) := st in
  iseen <- at_ seen index ;;
  if (iseen : bool) then Ok st
  else
    tc <- at_ tcs index ;;
    let tc1 := pmap patch tc in
    let tc2 := normalize asize tc1 in
    tcs' <- assign tcs index tc2 ;;
    seen' <- assign seen index true ;;
    Ok (seen', tcs').

Definition resetImageId (face : Face) : Face :=
  mkFace (fa face) (fb face) (fc face) (ta face) (tb face) (tc face) 0%nat.

Fixpoint mapFaces (asize : Size2) (patches : list Patch) (fs : list Face)
    (st : list bool * list Point2d)
  : result (list bool * list Point2d * list Face) :=
  match fs with
  | [] => Ok (st, [])
  | face :: rest =>
      patch <- at_ patches (imageId face) ;;
      st <- mapTc asize patch (ta face) st ;;
      st <- mapTc asize patch (tb face) st ;;
      st <- mapTc asize patch (tc face) st ;;
      '(st, rest') <- mapFaces asize patches rest st ;;
      Ok (st, resetImageId face :: rest')
  end.

(** The values taken by a counter [for (int x = start, xe = x + n; x != xe; ++x)]
    when [0 <= n] and [start + n] is an [int]: the bound is computed here in
    [Z], so a rectangle that reaches beyond [INT_MAX], where [x + n] overflows
    in the code, is outside the model. *)
Definition range (start n : Z) : list Z :=
  map (fun k => start + Z.of_nat k) (seq 0 (Z.to_nat n)).

(** Body of the inner loop of the pixel copy. *)
Definition copyPixel (tx : Mat) (txSize asize : Size2) (uvRect : Rect)
    (diff : Point2i) (j jsrc : Z) (otx : Mat) (i : Z) : result Mat :=
  if (i <? 0) || (i >=? width asize) then Ok otx
  else if width (size uvRect) =? 0 then Fault DivByZero
  else
    let isrc := pix (point uvRect) + Z.rem (i - pix diff) (width (size uvRect)) in
    if (isrc <? 0) || (isrc >=? width txSize) then Ok otx
    else
      v <- mat_at tx jsrc isrc ;;
      mat_set otx j i v.

(** Body of the outer loop of the pixel copy. *)
Definition copyRow (tx : Mat) (txSize asize : Size2) (uvRect dstRect : Rect)
    (diff : Point2i) (otx : Mat) (j : Z) : result Mat :=
  if (j <? 0) || (j >=? height asize) then Ok otx
  else if height (size uvRect) =? 0 then Fault DivByZero
  else
    let jsrc := piy (point uvRect) + Z.rem (j - piy diff) (height (size uvRect)) in
    if (jsrc <? 0) || (jsrc >=? height txSize) then Ok otx
    else if width (size dstRect) <? 0 then Fault SignedOverflow
    else
      foldM (copyPixel tx txSize asize uvRect diff j jsrc)
        (range (pix (point dstRect)) (width (size dstRect))) otx.

(** One iteration of [for (const auto &patch : patches)], for the
    destination rectangle [dstRect = patch.dst()] and the rectangle
    [uvRect] taken from [uvRects]. *)
Definition copyRect (tx : Mat) (txSize asize : Size2) (otx : Mat)
    (rects : Rect * Rect) : result Mat :=
  let '(uvRect, dstRect) := rects in
  let diff := mkPoint2i (pix (point dstRect) - pix (point uvRect))
                        (piy (point dstRect) - piy (point uvRect)) in
  if height (size dstRect) <? 0 then Fault SignedOverflow
  else
    foldM (copyRow tx txSize asize uvRect dstRect diff)
      (range (piy (point dstRect)) (height (size dstRect))) otx.

(** The pixel-copy step: [uvRects] is walked by the iterator [iuvRects]
    alongside [patches]. *)
Definition copyPatches (tx : Mat) (txSize asize : Size2)
    (uvRects : list Rect) (patches : list Patch) (otx : Mat) : result Mat :=
  foldM (copyRect tx txSize asize) (combine uvRects (map dst patches)) otx.

(** The two passes over [mesh.faces]: the result is the remapped
    [mesh.tCoords], the faces with their image id cleared, the placed
    patches and the atlas size. *)
Definition rebuildMesh (txSize : Size2) (submesh : SubMesh)
  : result (list Point2d * list Face * list Patch * Size2) :=
  let m := mesh submesh in
  let rgs := map (remapRegion txSize) (regions submesh) in
  let uvPatches := repeat InvalidExtents (length (regions submesh)) in
  let seen := repeat false (length (tCoords m)) in
  st <- foldM (expandFace rgs) (faces m) (mkExpandState seen (tCoords m) uvPatches) ;;
  let patches0 := map patchOfUv (es_uvPatches st) in
  let patches := map (packOne patches0) (seq 0 (length patches0)) in
  let asize := packSize patches0 in
  let seen := repeat false (length (es_tCoords st)) in
  '(st2, fs) <- mapFaces asize patches (faces m) (seen, es_tCoords st) ;;
  Ok (snd st2, fs, patches, asize).

(** [rebuild] changes [submesh] in place and writes the new texture; the
    result is the submesh after the call and the image handed to
    [cv::imwrite]. *)
Definition rebuild (submesh : SubMesh) (txStream : IStream)
  : result (SubMesh * Mat) :=
  tx <- stream2mat txStream ;;
  let txSize := mkSize2 (cols tx) (rows tx) in
  let rgs := map (remapRegion txSize) (regions submesh) in
  let uvRects := map rectOfUv rgs in
  '(tcs, fs, patches, asize) <- rebuildMesh txSize submesh ;;
  let otx := mat_new (height asize) (width asize) Vec3b_zero in
  otx <- copyPatches tx txSize asize uvRects patches otx ;;
  Ok (mkSubMesh (mkMesh (vertices (mesh submesh)) tcs fs) (regions submesh), otx).

(** ** write *)

(** The vertex loop of [write]. *)
Definition localize (ctr : Point2d) (m : Mesh) : Mesh :=
  mkMesh (map (fun v => vsub (conv v) ctr) (vertices m)) (tCoords m) (faces m).

Inductive TextureFile : Type :=
| Copied (s : IStream)     (* [copy(texture, texPath)] *)
| Rebuilt (image : Mat).   (* written by [rebuild] *)

(** [fs::path::filename()]: what follows the last separator of a path (the
    whole path when it has none).  The paths [write] builds end in an
    extension; a path that ends in a separator is not met. *)
Fixpoint lastComponent (cur p : string) : string :=
  match p with
  | EmptyString => cur
  | String c rest =>
      if Ascii.eqb c "/"%char then lastComponent EmptyString rest
      else lastComponent (cur ++ String c EmptyString) rest
  end.

Definition filename (p : string) : string := lastComponent EmptyString p.

(** A name without separator. *)
Fixpoint plainName (p : string) : bool :=
  match p with
  | EmptyString => true
  | String c rest => negb (Ascii.eqb c "/"%char) && plainName rest
  end.

(** What [write] emits for one submesh; paths are relative to the output
    directory.  [objMtl] is the material library the OBJ file names
    ([saveAsObj(mesh, os, mtlPath.filename().string())]) and [mtlTexture] the
    texture the material file names
    ([writeMtl(mtlPath, texPath.filename().string())]): both are file names,
    not paths. *)
Record Output : Type := mkOutput {
  meshPath : string;
  objMesh : Mesh;
  objMtl : string;
  mtlPath : string;
  mtlTexture : string;
  texPath : string;
  texFile : TextureFile
}.

Definition writeSubMesh (ctr : Point2d) (node : Node) (meshIndex : nat)
    (submesh : SubMesh) : result Output :=
  let m := localize ctr (mesh submesh) in
  href <- at_ (geometryData node) meshIndex ;;
  let tex := texture node meshIndex in
  let mtl := (href ++ ".mtl")%string in
  match regions submesh with
  | [] =>
      let tp := (href ++ imageType tex)%string in
      Ok (mkOutput (href ++ ".obj") m (filename mtl) mtl (filename tp) tp
            (Copied tex))
  | _ :: _ =>
      let tp := (href ++ ".jpg")%string in
      '(sm, otx) <- rebuild (mkSubMesh m (regions submesh)) tex ;;
      Ok (mkOutput (href ++ ".obj") (mesh sm) (filename mtl) mtl (filename tp) tp
            (Rebuilt otx))
  end.

Fixpoint writeSubMeshes (ctr : Point2d) (node : Node) (meshIndex : nat)
    (submeshes : list SubMesh) : result (list Output) :=
  match submeshes with
  | [] => Ok []
  | submesh :: rest =>
      o <- writeSubMesh ctr node meshIndex submesh ;;
      os <- writeSubMeshes ctr node (S meshIndex) rest ;;
      Ok (o :: os)
  end.

Definition writeNode (ctr : Point2d) (node : Node) : result (list Output) :=
  writeSubMeshes ctr node 0%nat (loadGeometry node).

(** The loop over the nodes.  [Ok] lists what a run that completes has
    emitted, node by node; the nodes are independent of one another, so the
    order in which the parallel loop takes them does not show in it.  A
    [Fault] records only that the run does not complete: the files of the
    submeshes processed before the failure stay on disk, and which ones those
    are depends on the schedule of the loop; this is not modelled. *)
Fixpoint writeNodes (ctr : Point2d) (nodes : list Node)
  : result (list (list Output)) :=
  match nodes with
  | [] => Ok []
  | node :: rest =>
      o <- writeNode ctr node ;;
      os <- writeNodes ctr rest ;;
      Ok (o :: os)
  end.

Definition write (tree : Tree) : result (list (list Output)) :=
  let extents := measureMesh tree in
  let ctr := center extents in
  writeNodes ctr (map snd tree).

End Model.

(** ** Notions used to state the properties *)

(** Accumulating a sequence of points into an extents value, as
    [addVertex] does for the converted vertices of one node. *)
Definition accumulate (pts : list Point2d) : Extents2 :=
  fold_left update pts InvalidExtents.

(** Merging node-local extents through the critical section. *)
Definition mergePartials (es : list Extents2) : Extents2 :=
  fold_left mergeExtents es InvalidExtents.

(** [dmin] and [dmax] are the same selection for opposite orders. *)
Definition sel (leb : Q -> Q -> bool) (a b : Q) : Q := if leb a b then a else b.

Definition extremum (leb : Q -> Q -> bool) (init : Q) (xs : list Q) : Q :=
  fold_left (sel leb) xs init.

Definition Qge_bool (a b : Q) : bool := Qle_bool b a.

(** [merge t e t'] : the sequence [t'] interleaves [t] and [e], keeping the
    order of each; a map with the entries [e] added to those of [t]. *)
Inductive merge {A : Type} : list A -> list A -> list A -> Prop :=
| merge_nil : merge [] [] []
| merge_left (x : A) (t e t' : list A) : merge t e t' -> merge (x :: t) e (x :: t')
| merge_right (x : A) (t e t' : list A) : merge t e t' -> merge t (x :: e) (x :: t').

(** Levels are C++ [int] values. *)
Definition int_levels (tree : Tree) : Prop :=
  Forall (fun item => INT_MIN <= level (snd item) <= INT_MAX) tree.

(** The node is selected by the second loop of [measureMesh] for the top
    level [top]. *)
Definition selected (top : Z) (node : Node) : bool :=
  (level node =? top) && hasGeometry node.

(** The face references the texture coordinate [index]. *)
Definition uses (face : Face) (index : nat) : bool :=
  (ta face =? index)%nat || (tb face =? index)%nat || (tc face =? index)%nat.

(** The image id of the first face, in mesh order, that references
    [index]. *)
Fixpoint owner (fs : list Face) (index : nat) : option nat :=
  match fs with
  | [] => None
  | face :: rest => if uses face index then Some (imageId face) else owner rest index
  end.

(** The unchecked precondition of [rebuild] on the indices of a face. *)
Definition face_in_bounds (nregions ntcs : nat) (face : Face) : bool :=
  (imageId face <? nregions)%nat && (ta face <? ntcs)%nat
  && (tb face <? ntcs)%nat && (tc face <? ntcs)%nat.

Definition faces_in_bounds (submesh : SubMesh) : bool :=
  forallb
    (face_in_bounds (length (regions submesh)) (length (tCoords (mesh submesh))))
    (faces (mesh submesh)).

(** One guarded visit of a texture coordinate: the shape shared by the
    lambdas [expand] and [map]. *)
Definition visit (F : Point2d -> Point2d) (index : nat)
    (st : list bool * list Point2d) : result (list bool * list Point2d) :=
  let '(seen, tcs) := st in
  iseen <- at_ seen index ;;
  if (iseen : bool) then Ok st
  else
    tc <- at_ tcs index ;;
    tcs' <- assign tcs index (F tc) ;;
    seen' <- assign seen index true ;;
    Ok (seen', tcs').

Fixpoint visitFaces (F : nat -> option (Point2d -> Point2d)) (fs : list Face)
    (st : list bool * list Point2d) : result (list bool * list Point2d) :=
  match fs with
  | [] => Ok st
  | face :: rest =>
      match F (imageId face) with
      | None => Fault OutOfBounds
      | Some g =>
          st <- visit g (ta face) st ;;
          st <- visit g (tb face) st ;;
          st <- visit g (tc face) st ;;
          visitFaces F rest st
      end
  end.

(** Source coordinate computed by the copy loops for the destination
    coordinate [x] on one axis. *)
Definition srcCoord (uv d extent x : Z) : Z := uv + Z.rem (x - (d - uv)) extent.

(** The source pixel copied to the atlas pixel [(j, i)] by one patch, if
    any: the pixel lies in the destination rectangle and in the atlas, and
    the computed source coordinate lies in the source image. *)
Definition sourceOf (txSize asize : Size2) (uvRect dstRect : Rect) (j i : Z)
  : option (Z * Z) :=
  let jsrc := srcCoord (piy (point uvRect)) (piy (point dstRect))
                (height (size uvRect)) j in
  let isrc := srcCoord (pix (point uvRect)) (pix (point dstRect))
                (width (size uvRect)) i in
  if (piy (point dstRect) <=? j) && (j <? piy (point dstRect) + height (size dstRect))
     && (pix (point dstRect) <=? i) && (i <? pix (point dstRect) + width (size dstRect))
     && (0 <=? j) && (j <? height asize) && (0 <=? i) && (i <? width asize)
     && (0 <=? jsrc) && (jsrc <? height txSize)
     && (0 <=? isrc) && (isrc <? width txSize)
  then Some (jsrc, isrc) else None.

(** The source pixel the specification names for the atlas pixel [(j, i)]:
    the source origin plus the offset from the destination origin, modulo
    the size of the source rectangle. *)
Definition tiledSource (uvRect dstRect : Rect) (j i : Z) : Z * Z :=
  (piy (point uvRect) + (j - piy (point dstRect)) mod height (size uvRect),
   pix (point uvRect) + (i - pix (point dstRect)) mod width (size uvRect)).

(** Rectangles for which the copy loops neither divide by zero nor run
    their counters past the end. *)
Definition copyable (rects : Rect * Rect) : Prop :=
  0 < width (size (fst rects)) /\ 0 < height (size (fst rects))
  /\ 0 <= width (size (snd rects)) /\ 0 <= height (size (snd rects)).

(** The transformation the first pass applies to a coordinate owned by
    region [k]: scaling into the region's pixel space. *)
Definition scaleOf (rgs : list Extents2) (k : nat) : option (Point2d -> Point2d) :=
  option_map (fun region => remapTc (size_of region)) (nth_error rgs k).

(** The transformation the second pass applies to a coordinate owned by
    region [k]: the placement of patch [k], then the normalization by the
    atlas size. *)
Definition placeOf {TX : Texturing} (asize : Size2) (patches : list Patch) (k : nat)
  : option (Point2d -> Point2d) :=
  option_map (fun patch tc => normalize asize (pmap patch tc)) (nth_error patches k).

(** A texture coordinate referenced by two faces of different image id. *)
Definition conflict (submesh : SubMesh) (index : nat) : Prop :=
  exists f1 f2, In f1 (faces (mesh submesh)) /\ In f2 (faces (mesh submesh))
                /\ uses f1 index = true /\ uses f2 index = true
                /\ imageId f1 <> imageId f2.

(** ** Further notions *)

(** The point lies in the box. *)
Definition covers (e : Extents2) (p : Point2d) : Prop :=
  (p2x (ll e) <= p2x p /\ p2x p <= p2x (ur e)
   /\ p2y (ll e) <= p2y p /\ p2y p <= p2y (ur e))%Q.

(** The value is in the range of the finite [double]s. *)
Definition finite (x : Q) : Prop := (DBL_LOWEST <= x /\ x <= DBL_MAX)%Q.

(** The calls a [slpk::GeometryLoader] / [slpk::MeshLoader] receives while
    the archive reader walks the geometry of a node. *)
Inductive LoaderCall : Type :=
| CallNext                                        (* next() *)
| CallAddVertex (v : Point3d)                     (* addVertex *)
| CallAddTexture (t : Point2d)                    (* addTexture *)
| CallAddFace (v t n : nat * nat * nat)           (* addFace *)
| CallAddNormal (n : Point3d)                     (* addNormal *)
| CallAddTxRegion (r : Region).                   (* addTxRegion *)

Section Loader.

Context {G : Geo}.

(** The class [MeasureMesh]: [next()] returns the loader itself,
    [addVertex] merges the converted vertex, the other methods have empty
    bodies. *)
Definition measureCall (extents : Extents2) (call : LoaderCall) : Extents2 :=
  match call with
  | CallNext => extents
  | CallAddVertex v => addVertex extents v
  | CallAddTexture _ => extents
  | CallAddFace _ _ _ => extents
  | CallAddNormal _ => extents
  | CallAddTxRegion _ => extents
  end.

End Loader.

(** The vertices among a sequence of loader calls, in call order. *)
Definition verticesOf (calls : list LoaderCall) : list Point3d :=
  flat_map (fun call => match call with CallAddVertex v => [v] | _ => [] end) calls.

(** The source pixel of the last rectangle, in patch order, that copies to
    the atlas pixel [(j, i)]. *)
Definition lastSource (txSize asize : Size2) (rects : list (Rect * Rect)) (j i : Z)
  : option (Z * Z) :=
  fold_left
    (fun acc r =>
       match sourceOf txSize asize (fst r) (snd r) j i with
       | Some s => Some s
       | None => acc
       end)
    rects None.

(** The state in which the first pass of [rebuild] starts. *)
Definition expandStart (submesh : SubMesh) : ExpandState :=
  mkExpandState (repeat false (length (tCoords (mesh submesh))))
                (tCoords (mesh submesh))
                (repeat InvalidExtents (length (regions submesh))).

(** ** A reference implementation of the collaborators

    Enough of the external interfaces to run the model: a translation as
    coordinate conversion, rectangles circumscribed around UV patches, a
    packer that puts the patches side by side in one row, and a raw image
    codec (width, height, then one gray value per pixel). *)

Module Reference.

Record RPatch : Type := mkRPatch { psrc : Rect; pdst : Rect }.

Definition rectOf (uv : Extents2) : Rect :=
  let x := Qfloor (p2x (ll uv)) in
  let y := Qfloor (p2y (ll uv)) in
  mkRect (mkPoint2i x y)
         (mkSize2 (Qceiling (p2x (ur uv)) - x) (Qceiling (p2y (ur uv)) - y)).

Definition patchOf (uv : Extents2) : RPatch := mkRPatch (rectOf uv) (rectOf uv).

Definition noPatch : RPatch :=
  mkRPatch (mkRect (mkPoint2i 0 0) (mkSize2 0 0)) (mkRect (mkPoint2i 0 0) (mkSize2 0 0)).

Definition rowOffset (ps : list RPatch) (k : nat) : Z :=
  fold_left Z.add (map (fun p => width (size (psrc p))) (firstn k ps)) 0.

Definition placeInRow (ps : list RPatch) (k : nat) : RPatch :=
  let p := nth k ps noPatch in
  mkRPatch (psrc p) (mkRect (mkPoint2i (rowOffset ps k) 0) (size (psrc p))).

Definition rowSize (ps : list RPatch) : Size2 :=
  mkSize2 (rowOffset ps (length ps))
          (fold_left Z.max (map (fun p => height (size (psrc p))) ps) 0).

Definition mapPoint (p : RPatch) (uv : Point2d) : Point2d :=
  mkPoint2d (p2x uv + inject_Z (pix (point (pdst p)) - pix (point (psrc p))))
            (p2y uv + inject_Z (piy (point (pdst p)) - piy (point (psrc p)))).

Definition decode (bytes : list Z) : option Mat :=
  match bytes with
  | w :: h :: px =>
      if Z.of_nat (length px) =? w * h
      then Some (mkMat h w (fun j i =>
                   let v := nth (Z.to_nat (j * w + i)) px 0 in (v, v, v)))
      else None
  | _ => None
  end.

Definition texturing : Texturing := {|
  Patch := RPatch;
  patchOfUv := patchOf;
  rectOfUv := rectOf;
  dst := pdst;
  pmap := mapPoint;
  packOne := placeInRow;
  packSize := rowSize;
  imdecode := decode;
  imageType := fun _ => ".png"%string
|}.

Definition geo : Geo := {|
  conv := fun v => mkPoint3d (p3x v + 1000) (p3y v + 2000) (p3z v);
  vsub := fun v c => mkPoint3d (p3x v - p2x c) (p3y v - p2y c) (p3z v)
|}.

(** A 4 x 2 image whose pixel [(j, i)] has the gray value [10 (j+1) + i]. *)
Definition image : IStream :=
  mkIStream "tex.bin" [4; 2; 10; 11; 12; 13; 20; 21; 22; 23].

Definition leftHalf : Region := mkRegion (mkPoint2i 0 0) (mkPoint2i 32767 65535).
Definition middle : Region := mkRegion (mkPoint2i 16384 0) (mkPoint2i 49151 65535).

Definition triangle (t0 t1 t2 img : nat) : Face := mkFace 0 1 2 t0 t1 t2 img.

(** One region, one face covering it. *)
Definition oneRegion : SubMesh :=
  mkSubMesh
    (mkMesh [mkPoint3d 0 0 0; mkPoint3d 1 0 0; mkPoint3d 0 1 0]
            [mkPoint2d 0 0; mkPoint2d 1 0; mkPoint2d 0 1]
            [triangle 0 1 2 0])
    [middle].

(** Two regions; texture coordinate 0 is referenced by a face of each. *)
Definition sharedIndex : SubMesh :=
  mkSubMesh
    (mkMesh [mkPoint3d 0 0 0; mkPoint3d 1 0 0; mkPoint3d 0 1 0]
            [mkPoint2d 1 1; mkPoint2d 1 0; mkPoint2d 0 1; mkPoint2d 0 0; mkPoint2d (1#2) 1]
            [triangle 0 1 2 0; triangle 0 3 4 1])
    [leftHalf; middle].

(** Two regions, every texture coordinate used by the faces of one
    region only; coordinate 0 is used by two faces of region 0. *)
Definition twoRegions : SubMesh :=
  mkSubMesh
    (mkMesh [mkPoint3d 0 0 0; mkPoint3d 1 0 0; mkPoint3d 0 1 0]
            [mkPoint2d 1 1; mkPoint2d 1 0; mkPoint2d 0 1; mkPoint2d 0 0; mkPoint2d (1#2) 1;
             mkPoint2d 1 (1#2)]
            [triangle 0 1 2 0; triangle 0 2 3 0; triangle 4 5 4 1])
    [leftHalf; middle].

(** A submesh without regions. *)
Definition plain : SubMesh :=
  mkSubMesh
    (mkMesh [mkPoint3d 0 0 0; mkPoint3d 4 0 1; mkPoint3d 0 6 2]
            [mkPoint2d 0 0; mkPoint2d 1 0; mkPoint2d 0 1]
            [triangle 0 1 2 0])
    [].

Definition coarse : Node := mkNode "c" 2 true ["nodes/c/geometries/0"%string].
Definition fine1 : Node := mkNode "f1" 3 true ["nodes/f1/geometries/0"%string].
Definition fine2 : Node :=
  mkNode "f2" 4 true ["nodes/f2/geometries/0"%string; "nodes/f2/geometries/1"%string].
Definition root : Node := mkNode "root" 0 false [].
Definition inner : Node := mkNode "inner" 1 false [].
Definition coarse2 : Node := mkNode "c2" 2 true ["nodes/c2/geometries/0"%string].
(** A node flagged as having geometry whose meshes have no vertex. *)
Definition hollow : Node := mkNode "h" 2 true [].

Definition archive : Archive := {|
  loadGeometry := fun node =>
    if String.eqb (id node) "c" then [plain]
    else if String.eqb (id node) "c2" then [oneRegion]
    else if String.eqb (id node) "f1" then [twoRegions]
    else if String.eqb (id node) "f2" then [plain; oneRegion]
    else [];
  texture := fun _ _ => image
|}.

Definition tree : Tree := [("c"%string, coarse); ("f1"%string, fine1); ("f2"%string, fine2)].
Definition tree' : Tree :=
  [("c"%string, coarse); ("f1"%string, fine1); ("f2"%string, fine2);
   ("inner"%string, inner); ("root"%string, root)].

(** A tree without any geometry-bearing node. *)
Definition bare : Tree := [("inner"%string, inner); ("root"%string, root)].

(** A tree whose top level holds a node without vertices. *)
Definition hollowTree : Tree := [("c"%string, coarse); ("h"%string, hollow)].

(** A tree of nodes whose submeshes have no regions. *)
Definition plainTree : Tree := [("c"%string, coarse); ("root"%string, root)].

(** A node with fewer geometry references than submeshes. *)
Definition short : Node := mkNode "f2" 4 true ["nodes/f2/geometries/0"%string].

(** The decoded form of [image]. *)
Definition ramp : Mat :=
  mkMat 2 4 (fun j i => let v := 10 * (j + 1) + i in (v, v, v)).

Definition rectAt (x y w h : Z) : Rect := mkRect (mkPoint2i x y) (mkSize2 w h).

End Reference.

(** * Properties *)

(** ** Selections by a total preorder *)

Section Extremum.

Variable leb : Q -> Q -> bool.
Hypothesis leb_total : forall a b, leb a b = true \/ leb b a = true.
Hypothesis leb_trans :
  forall a b c, leb a b = true -> leb b c = true -> leb a c = true.

Lemma leb_refl (a : Q) : leb a a = true.
Proof. destruct (leb_total a a); assumption. Qed.

Lemma sel_le_l (a b : Q) : leb (sel leb a b) a = true.
Proof.
  unfold sel. destruct (leb a b) eqn:E.
  - apply leb_refl.
  - destruct (leb_total a b); congruence.
Qed.

Lemma sel_le_r (a b : Q) : leb (sel leb a b) b = true.
Proof.
  unfold sel. destruct (leb a b) eqn:E; [assumption | apply leb_refl].
Qed.

Lemma sel_cases (a b : Q) : sel leb a b = a \/ sel leb a b = b.
Proof. unfold sel. destruct (leb a b); auto. Qed.

Lemma extremum_le_init (xs : list Q) (init : Q) :
  leb (extremum leb init xs) init = true.
Proof.
  revert init. induction xs as [|x xs IH]; intro init; cbn.
  - apply leb_refl.
  - eapply leb_trans; [apply IH | apply sel_le_l].
Qed.

Lemma extremum_le_elem (xs : list Q) (init x : Q) :
  In x xs -> leb (extremum leb init xs) x = true.
Proof.
  revert init. induction xs as [|y xs IH]; intros init HIn; cbn.
  - destruct HIn.
  - destruct HIn as [-> | HIn].
    + eapply leb_trans; [apply extremum_le_init | apply sel_le_r].
    + apply IH, HIn.
Qed.

Lemma extremum_cases (xs : list Q) (init : Q) :
  extremum leb init xs = init \/ In (extremum leb init xs) xs.
Proof.
  revert init. induction xs as [|y xs IH]; intro init; cbn.
  - now left.
  - destruct (IH (sel leb init y)) as [E | HIn].
    + unfold extremum in E. rewrite E. destruct (sel_cases init y) as [-> | ->]; auto.
    + right. right. exact HIn.
Qed.

Lemma extremum_glb (xs : list Q) (init m : Q) :
  leb m init = true ->
  (forall x, In x xs -> leb m x = true) ->
  leb m (extremum leb init xs) = true.
Proof.
  intros Hinit Hall.
  destruct (extremum_cases xs init) as [-> | HIn]; auto.
Qed.

(** Two lists of values have equivalent extrema as soon as every value of
    one is dominated by a value of the other. *)
Lemma extremum_cover (cs pts : list Q) (init : Q) :
  (forall x, In x pts -> exists c, In c cs /\ leb c x = true) ->
  (forall c, In c cs ->
     leb init c = true \/ exists x, In x pts /\ leb x c = true) ->
  leb (extremum leb init cs) (extremum leb init pts) = true
  /\ leb (extremum leb init pts) (extremum leb init cs) = true.
Proof.
  intros H1 H2. split; apply extremum_glb.
  - apply extremum_le_init.
  - intros x Hx. destruct (H1 x Hx) as (c & Hc & Hcx).
    eapply leb_trans; [apply extremum_le_elem, Hc | exact Hcx].
  - apply extremum_le_init.
  - intros c Hc. destruct (H2 c Hc) as [Hic | (x & Hx & Hxc)].
    + eapply leb_trans; [apply extremum_le_init | exact Hic].
    + eapply leb_trans; [apply extremum_le_elem, Hx | exact Hxc].
Qed.

End Extremum.

Lemma Qle_bool_total (a b : Q) : Qle_bool a b = true \/ Qle_bool b a = true.
Proof.
  rewrite !Qle_bool_iff. destruct (Qlt_le_dec a b) as [H | H]; [left | right]; lra.
Qed.

Lemma Qle_bool_trans (a b c : Q) :
  Qle_bool a b = true -> Qle_bool b c = true -> Qle_bool a c = true.
Proof. rewrite !Qle_bool_iff. lra. Qed.

Lemma Qge_bool_total (a b : Q) : Qge_bool a b = true \/ Qge_bool b a = true.
Proof. unfold Qge_bool. apply Qle_bool_total. Qed.

Lemma Qge_bool_trans (a b c : Q) :
  Qge_bool a b = true -> Qge_bool b c = true -> Qge_bool a c = true.
Proof. unfold Qge_bool. intros H1 H2. exact (Qle_bool_trans c b a H2 H1). Qed.

Lemma Qle_bool_antisym (a b : Q) :
  Qle_bool a b = true -> Qle_bool b a = true -> a == b.
Proof. rewrite !Qle_bool_iff. lra. Qed.

Lemma Qge_bool_antisym (a b : Q) :
  Qge_bool a b = true -> Qge_bool b a = true -> a == b.
Proof. unfold Qge_bool. rewrite !Qle_bool_iff. lra. Qed.

(** ** Components of accumulated extents *)

Lemma fold_update_components (pts : list Point2d) (e : Extents2) :
  p2x (ll (fold_left update pts e)) = extremum Qle_bool (p2x (ll e)) (map p2x pts)
  /\ p2y (ll (fold_left update pts e)) = extremum Qle_bool (p2y (ll e)) (map p2y pts)
  /\ p2x (ur (fold_left update pts e)) = extremum Qge_bool (p2x (ur e)) (map p2x pts)
  /\ p2y (ur (fold_left update pts e)) = extremum Qge_bool (p2y (ur e)) (map p2y pts).
Proof.
  revert e. induction pts as [|p pts IH]; intro e; cbn.
  - repeat split.
  - destruct (IH (update e p)) as (H1 & H2 & H3 & H4).
    rewrite H1, H2, H3, H4. repeat split.
Qed.

Lemma fold_merge_components (es : list Extents2) (g : Extents2) (k : Point2d -> Q) :
  (k = p2x \/ k = p2y) ->
  k (ll (fold_left mergeExtents es g))
    = extremum Qle_bool (k (ll g)) (flat_map (fun e => [k (ll e); k (ur e)]) es)
  /\ k (ur (fold_left mergeExtents es g))
    = extremum Qge_bool (k (ur g)) (flat_map (fun e => [k (ll e); k (ur e)]) es).
Proof.
  intro Hk. revert g. induction es as [|e es IH]; intro g; cbn.
  - split; reflexivity.
  - destruct (IH (mergeExtents g e)) as (H1 & H2). rewrite H1, H2.
    destruct Hk as [-> | ->]; split; reflexivity.
Qed.

Lemma accumulate_components (pts : list Point2d) (k : Point2d -> Q) :
  (k = p2x \/ k = p2y) ->
  k (ll (accumulate pts)) = extremum Qle_bool DBL_MAX (map k pts)
  /\ k (ur (accumulate pts)) = extremum Qge_bool DBL_LOWEST (map k pts).
Proof.
  intro Hk. unfold accumulate.
  destruct (fold_update_components pts InvalidExtents) as (H1 & H2 & H3 & H4).
  destruct Hk as [-> | ->]; split; assumption.
Qed.


Lemma extents_eq_sym (e f : Extents2) : extents_eq e f -> extents_eq f e.
Proof.
  intros ((H1 & H2) & (H3 & H4)). repeat split; symmetry; assumption.
Qed.

Lemma extents_eq_trans (e f g : Extents2) :
  extents_eq e f -> extents_eq f g -> extents_eq e g.
Proof.
  intros ((H1 & H2) & (H3 & H4)) ((K1 & K2) & (K3 & K4)).
  repeat split; etransitivity; eassumption.
Qed.

(** ** C8: region to pixel conversion *)


(** ** Merging partial extents *)

Lemma invalid_corners (k : Point2d -> Q) :
  (k = p2x \/ k = p2y) ->
  k (ll InvalidExtents) = DBL_MAX /\ k (ur InvalidExtents) = DBL_LOWEST.
Proof. intros [-> | ->]; split; reflexivity. Qed.

(** The corners of an accumulated extents bound the accumulated points. *)
Lemma accumulate_bounds (pts : list Point2d) (k : Point2d -> Q) (p : Point2d) :
  (k = p2x \/ k = p2y) ->
  In p pts ->
  Qle_bool (k (ll (accumulate pts))) (k p) = true
  /\ Qle_bool (k p) (k (ur (accumulate pts))) = true.
Proof.
  intros Hk Hp.
  destruct (accumulate_components pts k Hk) as (H1 & H2). rewrite H1, H2. split.
  - apply extremum_le_elem; [apply Qle_bool_total | apply Qle_bool_trans |].
    apply in_map, Hp.
  - change (Qge_bool (extremum Qge_bool DBL_LOWEST (map k pts)) (k p) = true).
    apply extremum_le_elem; [apply Qge_bool_total | apply Qge_bool_trans |].
    apply in_map, Hp.
Qed.

(** Each corner is the initial sentinel or a coordinate of a point. *)
Lemma accumulate_corner_cases (pts : list Point2d) (k : Point2d -> Q) :
  (k = p2x \/ k = p2y) ->
  (k (ll (accumulate pts)) = DBL_MAX
   \/ exists p, In p pts /\ k (ll (accumulate pts)) = k p)
  /\ (k (ur (accumulate pts)) = DBL_LOWEST
      \/ exists p, In p pts /\ k (ur (accumulate pts)) = k p).
Proof.
  intro Hk.
  destruct (accumulate_components pts k Hk) as (H1 & H2). rewrite H1, H2. split.
  - destruct (extremum_cases Qle_bool (map k pts) DBL_MAX) as [E | HIn];
      [now left | right].
    apply in_map_iff in HIn. destruct HIn as (p & Ep & Hp). exists p. auto.
  - destruct (extremum_cases Qge_bool (map k pts) DBL_LOWEST) as [E | HIn];
      [now left | right].
    apply in_map_iff in HIn. destruct HIn as (p & Ep & Hp). exists p. auto.
Qed.

Lemma in_corners (k : Point2d -> Q) (c : Q) (parts : list (list Point2d)) :
  In c (flat_map (fun e => [k (ll e); k (ur e)]) (map accumulate parts)) <->
  exists part, In part parts
               /\ (c = k (ll (accumulate part)) \/ c = k (ur (accumulate part))).
Proof.
  rewrite in_flat_map. split.
  - intros (e & He & Hc). apply in_map_iff in He. destruct He as (b & <- & Hb).
    exists b. split; [exact Hb |]. cbn in Hc. intuition.
  - intros (b & Hb & Hc). exists (accumulate b). split.
    + apply in_map, Hb.
    + cbn. intuition.
Qed.

(** One coordinate of the merged partial extents against the same
    coordinate of the extents accumulated point by point. *)
Lemma mergePartials_component (k : Point2d -> Q) (parts sched : list (list Point2d))
    (pts : list Point2d) :
  (k = p2x \/ k = p2y) ->
  Forall (fun part => part <> []) parts ->
  Permutation sched parts ->
  Permutation pts (concat parts) ->
  k (ll (mergePartials (map accumulate sched))) == k (ll (accumulate pts))
  /\ k (ur (mergePartials (map accumulate sched))) == k (ur (accumulate pts)).
Proof.
  intros Hk Hne Hsched Hpts. unfold mergePartials.
  destruct (fold_merge_components (map accumulate sched) InvalidExtents k Hk)
    as (E1 & E2).
  destruct (accumulate_components pts k Hk) as (E3 & E4).
  destruct (invalid_corners k Hk) as (I1 & I2).
  rewrite E1, E2, E3, E4, I1, I2. clear E1 E2 E3 E4 I1 I2.
  assert (Hsrc : forall x, In x (map k pts) ->
            exists part p, In part sched /\ In p part /\ x = k p).
  { intros x Hx. apply in_map_iff in Hx. destruct Hx as (p & <- & Hp).
    apply (Permutation_in _ Hpts) in Hp. apply in_concat in Hp.
    destruct Hp as (b & Hb & Hp). exists b, p. repeat split; auto.
    apply (Permutation_in _ (Permutation_sym Hsched)), Hb. }
  assert (Hdst : forall part p, In part sched -> In p part -> In (k p) (map k pts)).
  { intros b p Hb Hp. apply in_map.
    apply (Permutation_in _ (Permutation_sym Hpts)).
    apply in_concat. exists b. split; [| exact Hp].
    apply (Permutation_in _ Hsched), Hb. }
  assert (Hwit : forall part, In part sched -> exists p, In p part).
  { intros b Hb. apply (Permutation_in _ Hsched) in Hb.
    rewrite Forall_forall in Hne. specialize (Hne b Hb).
    destruct b as [|p ps]; [congruence |]. exists p. now left. }
  split.
  - destruct (extremum_cover Qle_bool Qle_bool_total Qle_bool_trans
                (flat_map (fun e => [k (ll e); k (ur e)]) (map accumulate sched))
                (map k pts) DBL_MAX) as (A & B).
    + intros x Hx. destruct (Hsrc x Hx) as (b & p & Hb & Hp & ->).
      exists (k (ll (accumulate b))). split.
      * apply in_corners. exists b. auto.
      * apply (accumulate_bounds b k p Hk Hp).
    + intros c Hc. apply in_corners in Hc. destruct Hc as (b & Hb & [-> | ->]).
      * destruct (accumulate_corner_cases b k Hk) as ([E | (p & Hp & E)] & _).
        -- left. rewrite E. apply Qle_bool_iff. lra.
        -- right. exists (k p). split; [eauto |].
           rewrite E. apply Qle_bool_iff. lra.
      * right. destruct (Hwit b Hb) as (p & Hp).
        exists (k p). split; [eauto |].
        apply (accumulate_bounds b k p Hk Hp).
    + apply Qle_bool_antisym; assumption.
  - destruct (extremum_cover Qge_bool Qge_bool_total Qge_bool_trans
                (flat_map (fun e => [k (ll e); k (ur e)]) (map accumulate sched))
                (map k pts) DBL_LOWEST) as (A & B).
    + intros x Hx. destruct (Hsrc x Hx) as (b & p & Hb & Hp & ->).
      exists (k (ur (accumulate b))). split.
      * apply in_corners. exists b. auto.
      * apply (accumulate_bounds b k p Hk Hp).
    + intros c Hc. apply in_corners in Hc. destruct Hc as (b & Hb & [-> | ->]).
      * right. destruct (Hwit b Hb) as (p & Hp).
        exists (k p). split; [eauto |].
        apply (accumulate_bounds b k p Hk Hp).
      * destruct (accumulate_corner_cases b k Hk) as (_ & [E | (p & Hp & E)]).
        -- left. rewrite E. apply Qle_bool_iff. lra.
        -- right. exists (k p). split; [eauto |].
           rewrite E. apply Qle_bool_iff. lra.
    + apply Qge_bool_antisym; assumption.
Qed.

(** Partial extents of non-empty sets of points, merged in any order,
    give the bounding box of all the points. *)
Lemma mergePartials_accumulate (parts sched : list (list Point2d))
    (pts : list Point2d) :
  Forall (fun part => part <> []) parts ->
  Permutation sched parts ->
  Permutation pts (concat parts) ->
  extents_eq (mergePartials (map accumulate sched)) (accumulate pts).
Proof.
  intros Hne Hsched Hpts.
  destruct (mergePartials_component p2x parts sched pts (or_introl eq_refl)
              Hne Hsched Hpts) as (X1 & X2).
  destruct (mergePartials_component p2y parts sched pts (or_intror eq_refl)
              Hne Hsched Hpts) as (Y1 & Y2).
  repeat split; assumption.
Qed.

Ltac q_hyps :=
  repeat match goal with
         | H : Qle_bool _ _ = true |- _ => apply Qle_bool_iff in H
         | H : Qle_bool _ _ = false |- _ =>
             apply not_true_iff_false in H; rewrite Qle_bool_iff in H
         end.

Lemma dmin_swap (a b c : Q) : dmin (dmin a b) c == dmin (dmin a c) b.
Proof.
  unfold dmin.
  destruct (Qle_bool a b) eqn:E1; destruct (Qle_bool a c) eqn:E2;
    try rewrite E1; try rewrite E2;
    try (destruct (Qle_bool b c) eqn:E3); try (destruct (Qle_bool c b) eqn:E4);
    q_hyps; lra.
Qed.

Lemma dmax_swap (a b c : Q) : dmax (dmax a b) c == dmax (dmax a c) b.
Proof.
  unfold dmax.
  destruct (Qle_bool b a) eqn:E1; destruct (Qle_bool c a) eqn:E2;
    try rewrite E1; try rewrite E2;
    try (destruct (Qle_bool b c) eqn:E3); try (destruct (Qle_bool c b) eqn:E4);
    q_hyps; lra.
Qed.

Lemma update_swap (e : Extents2) (p q : Point2d) :
  extents_eq (update (update e p) q) (update (update e q) p).
Proof.
  unfold extents_eq, point_eq, update; cbn [ll ur p2x p2y].
  repeat split; first [apply dmin_swap | apply dmax_swap].
Qed.

(** ** measureMesh *)

Section MeasureMesh.

Context {G : Geo} {AR : Archive}.

Lemma measureNode_accumulate (node : Node) :
  measureNode node
  = accumulate (map (fun v => project (conv v)) (loadVertices node)).
Proof.
  unfold measureNode, accumulate.
  generalize InvalidExtents. induction (loadVertices node) as [|v vs IH]; intro e; cbn.
  - reflexivity.
  - apply IH.
Qed.

(** The parallel loop merges the partial extents of the nodes' converted
    and projected vertices. *)
Lemma measureNodes_mergePartials (nodes : list Node) :
  measureNodes nodes
  = mergePartials
      (map accumulate
         (map (fun node => map (fun v => project (conv v)) (loadVertices node)) nodes)).
Proof.
  rewrite map_map. unfold measureNodes, mergePartials.
  generalize InvalidExtents. induction nodes as [|n ns IH]; intro e; cbn.
  - reflexivity.
  - rewrite measureNode_accumulate. apply IH.
Qed.

Lemma concat_node_points (nodes : list Node) :
  concat (map (fun node => map (fun v => project (conv v)) (loadVertices node)) nodes)
  = map (fun v => project (conv v)) (flat_map loadVertices nodes).
Proof.
  induction nodes as [|n ns IH]; cbn.
  - reflexivity.
  - rewrite map_app, IH. reflexivity.
Qed.

Lemma measureNodes_accumulate (nodes sched : list Node) (pts : list Point2d) :
  Forall (fun node => loadVertices node <> []) nodes ->
  Permutation sched nodes ->
  Permutation pts (map (fun v => project (conv v)) (flat_map loadVertices nodes)) ->
  extents_eq (measureNodes sched) (accumulate pts).
Proof.
  intros Hne Hsched Hpts. rewrite measureNodes_mergePartials.
  apply (mergePartials_accumulate
           (map (fun node => map (fun v => project (conv v)) (loadVertices node)) nodes)).
  - apply Forall_map. eapply Forall_impl; [| exact Hne]. cbn.
    intros n Hn E. apply Hn. destruct (loadVertices n); [reflexivity | discriminate].
  - apply Permutation_map, Hsched.
  - rewrite concat_node_points. exact Hpts.
Qed.

(** C7, amended.  As long as every node-local partial holds a point, the
    extents accumulation of [measureMesh] does not depend on the order of
    the merges: whatever the order [sched] in which the critical sections of
    the nodes run, and whatever the partition of the points into the
    non-empty vertex sets of the nodes, the merged extents equal the
    bounding box accumulated point by point, in any order of the points.
    The same holds of any partition [parts] of the points into non-empty
    partial accumulators whose corners are merged in any order, and merging
    two points commutes. *)
Theorem extents_accumulation_order_independent
    (nodes sched : list Node) (pts pts' : list Point2d) :
  Forall (fun node => loadVertices node <> []) nodes ->
  Permutation sched nodes ->
  Permutation pts (map (fun v => project (conv v)) (flat_map loadVertices nodes)) ->
  Permutation pts' pts ->
  extents_eq (measureNodes sched) (accumulate pts)
  /\ extents_eq (accumulate pts') (accumulate pts)
  /\ extents_eq (measureNodes sched) (measureNodes nodes)
  /\ (forall parts order : list (list Point2d),
        Forall (fun part => part <> []) parts ->
        Permutation order parts ->
        Permutation pts (concat parts) ->
        extents_eq (mergePartials (map accumulate order)) (accumulate pts))
  /\ (forall e p q, extents_eq (update (update e p) q) (update (update e q) p)).
Proof.
  intros Hne Hsched Hpts Hpts'.
  assert (H1 := measureNodes_accumulate nodes sched pts Hne Hsched Hpts).
  assert (H2 := measureNodes_accumulate nodes sched pts' Hne Hsched
                  (Permutation_trans Hpts' Hpts)).
  assert (H3 := measureNodes_accumulate nodes nodes pts Hne
                  (Permutation_refl nodes) Hpts).
  split; [exact H1 | split; [| split; [| split]]].
  - apply (extents_eq_trans _ (measureNodes sched)).
    + apply extents_eq_sym, H2.
    + exact H1.
  - apply (extents_eq_trans _ (accumulate pts)).
    + exact H1.
    + apply extents_eq_sym, H3.
  - intros parts order Hp Ho Hc. apply (mergePartials_accumulate parts); assumption.
  - apply update_swap.
Qed.

End MeasureMesh.

Lemma extents_accumulation_order_independent_witness :
  let nodes := [Reference.coarse; Reference.coarse2] in
  let sched := [Reference.coarse2; Reference.coarse] in
  let pts := map (fun v => project (@conv Reference.geo v))
               (flat_map (@loadVertices Reference.archive) nodes) in
  Forall (fun node => @loadVertices Reference.archive node <> []) nodes
  /\ Permutation sched nodes
  /\ Permutation (rev pts) pts
  /\ extents_eq (@measureNodes Reference.geo Reference.archive sched) (accumulate pts)
  /\ extents_eq (accumulate (rev pts)) (accumulate pts).
Proof.
  intros nodes sched pts.
  assert (Hne : Forall (fun node => @loadVertices Reference.archive node <> []) nodes)
    by (repeat constructor; cbv; discriminate).
  assert (Hsched : Permutation sched nodes) by apply perm_swap.
  assert (Hrev : Permutation (rev pts) pts)
    by apply Permutation_sym, Permutation_rev.
  destruct (@extents_accumulation_order_independent Reference.geo Reference.archive
              nodes sched pts (rev pts) Hne Hsched (Permutation_refl _) Hrev)
    as (H1 & H2 & _).
  repeat split; assumption || apply H1 || apply H2.
Defined.

(** A selected node without vertices contributes the two corners of the
    invalid extents, which stretch the result to the whole range. *)
Example measureNodes_hollow_node :
  @measureNodes Reference.geo Reference.archive [Reference.coarse; Reference.hollow]
  = mkExtents2 (mkPoint2d DBL_LOWEST DBL_LOWEST) (mkPoint2d DBL_MAX DBL_MAX).
Proof. vm_compute. reflexivity. Qed.

(** C7, as stated, fails: a node-local partial without points still has its
    two corners merged.  The top level of [Reference.hollowTree] holds a
    node with three vertices and a node without vertices; the node-local
    point sets make up the three points, whose bounding box is
    (1000,2000)-(1004,2006), and [measureMesh] returns extents whose lower
    corner is the lowest and whose upper corner is the greatest double. *)
Lemma empty_partial_breaks_accumulation :
  let nodes := [Reference.coarse; Reference.hollow] in
  let parts :=
    map (fun node => map (fun v => project (@conv Reference.geo v))
                       (@loadVertices Reference.archive node)) nodes in
  let pts := concat parts in
  length pts = 3%nat
  /\ parts = [pts; []]
  /\ extents_eq (accumulate pts)
       (mkExtents2 (mkPoint2d 1000 2000) (mkPoint2d 1004 2006))
  /\ @measureMesh Reference.geo Reference.archive Reference.hollowTree
     = mergePartials (map accumulate parts)
  /\ @measureMesh Reference.geo Reference.archive Reference.hollowTree
     = mkExtents2 (mkPoint2d DBL_LOWEST DBL_LOWEST) (mkPoint2d DBL_MAX DBL_MAX)
  /\ ~ extents_eq
         (@measureMesh Reference.geo Reference.archive Reference.hollowTree)
         (accumulate pts).
Proof.
  cbv zeta.
  split; [reflexivity | split; [reflexivity | split; [| split; [| split]]]].
  - vm_compute. repeat split; reflexivity.
  - vm_compute. reflexivity.
  - vm_compute. reflexivity.
  - intros ((H & _) & _). vm_compute in H. discriminate H.
Qed.

(** ** Level selection *)

Local Abbreviation minStep :=
  (fun (top : Z) (item : string * Node) =>
     if hasGeometry (snd item) then Z.min top (level (snd item)) else top).

Lemma fold_min_init (tree : Tree) (a b : Z) :
  fold_left minStep tree (Z.min a b) = Z.min a (fold_left minStep tree b).
Proof.
  revert b. induction tree as [|item tree IH]; intro b; cbn.
  - reflexivity.
  - destruct (hasGeometry (snd item)).
    + rewrite <- Z.min_assoc. apply IH.
    + apply IH.
Qed.

Lemma fold_min_le_init (tree : Tree) (init : Z) :
  fold_left minStep tree init <= init.
Proof.
  revert init. induction tree as [|item tree IH]; intro init; cbn.
  - lia.
  - destruct (hasGeometry (snd item)).
    + specialize (IH (Z.min init (level (snd item)))). lia.
    + apply IH.
Qed.

Lemma fold_min_le_elem (tree : Tree) (init : Z) (item : string * Node) :
  In item tree -> hasGeometry (snd item) = true ->
  fold_left minStep tree init <= level (snd item).
Proof.
  revert init. induction tree as [|x tree IH]; intros init HIn Hg; cbn.
  - destruct HIn.
  - destruct HIn as [-> | HIn].
    + rewrite Hg.
      pose proof (fold_min_le_init tree (Z.min init (level (snd item)))). lia.
    + apply IH; assumption.
Qed.

Lemma fold_min_cases (tree : Tree) (init : Z) :
  fold_left minStep tree init = init
  \/ exists item, In item tree /\ hasGeometry (snd item) = true
                  /\ level (snd item) = fold_left minStep tree init.
Proof.
  revert init. induction tree as [|x tree IH]; intro init; cbn.
  - now left.
  - destruct (hasGeometry (snd x)) eqn:Hg.
    + destruct (IH (Z.min init (level (snd x)))) as [E | (item & HIn & Hgi & E)].
      * rewrite E. destruct (Z.min_spec init (level (snd x))) as [(_ & ->) | (_ & ->)].
        -- now left.
        -- right. exists x. auto.
      * right. exists item. auto.
    + destruct (IH init) as [E | (item & HIn & Hgi & E)].
      * now left.
      * right. exists item. auto.
Qed.

Lemma topLevel_merge (tree extra tree' : Tree) (init : Z) :
  merge tree extra tree' ->
  Forall (fun item => hasGeometry (snd item) = false
                      \/ fold_left minStep tree init < level (snd item)) extra ->
  fold_left minStep tree' init = fold_left minStep tree init.
Proof.
  intro Hm. revert init. induction Hm as [| x t e t' Hm IH | x t e t' Hm IH];
    intros init Hextra; cbn.
  - reflexivity.
  - apply IH. exact Hextra.
  - inversion Hextra as [| ? ? Hx Hrest]; subst.
    destruct (hasGeometry (snd x)) eqn:Hg.
    + destruct Hx as [Hx | Hx]; [discriminate |].
      assert (E : fold_left minStep t (Z.min init (level (snd x)))
                  = fold_left minStep t init).
      { rewrite Z.min_comm, fold_min_init. lia. }
      rewrite IH; [exact E |]. rewrite E. exact Hrest.
    + apply IH. exact Hrest.
Qed.

Lemma filter_merge {A : Type} (p : A -> bool) (t e t' : list A) :
  merge t e t' -> Forall (fun x => p x = false) e -> filter p t' = filter p t.
Proof.
  induction 1 as [| x t e t' Hm IH | x t e t' Hm IH]; intro He; cbn.
  - reflexivity.
  - rewrite (IH He). reflexivity.
  - inversion He as [| ? ? Hx Hrest]; subst. rewrite Hx. apply IH, Hrest.
Qed.

Lemma collectNodes_In (tree : Tree) (node : Node) :
  In node (collectNodes tree) <->
  exists key, In (key, node) tree
              /\ hasGeometry node = true /\ level node = topLevel tree.
Proof.
  unfold collectNodes. rewrite in_map_iff. split.
  - intros ((key, n) & E & HIn). cbn in E. subst n.
    apply filter_In in HIn. destruct HIn as (HIn & Hsel). cbn in Hsel.
    apply andb_true_iff in Hsel. destruct Hsel as (Hl & Hg).
    exists key. repeat split; auto. now apply Z.eqb_eq.
  - intros (key & HIn & Hg & Hl). exists (key, node). split; [reflexivity |].
    apply filter_In. split; [exact HIn |]. cbn. rewrite Hg, Hl, Z.eqb_refl. reflexivity.
Qed.

Section LevelSelection.

Context {G : Geo} {AR : Archive}.

Lemma measureNodes_ext (AR' : Archive) (nodes : list Node) :
  (forall node, In node nodes -> @loadVertices AR' node = @loadVertices AR node) ->
  @measureNodes G AR' nodes = @measureNodes G AR nodes.
Proof.
  intro Hsame.
  assert (Hnode : forall node, In node nodes ->
            @measureNode G AR' node = @measureNode G AR node).
  { intros node Hnode. unfold measureNode. now rewrite (Hsame node Hnode). }
  clear Hsame. unfold measureNodes. generalize InvalidExtents.
  induction nodes as [|n ns IH]; intro e; cbn [fold_left].
  - reflexivity.
  - rewrite (Hnode n (or_introl eq_refl)).
    apply IH. intros node Hin. apply Hnode. now right.
Qed.

(** C2.  [measureMesh] measures exactly the nodes that have geometry and
    whose level is the minimum level of the geometry-bearing nodes: the
    top level is that minimum, the measured nodes are the nodes of that
    level with geometry, only their vertices (converted and projected)
    determine the result, and adding nodes without geometry, or nodes with
    geometry at finer levels, changes neither the level nor the result. *)
Theorem measureMesh_level_selection (tree : Tree) :
  int_levels tree ->
  (forall item, In item tree -> hasGeometry (snd item) = true ->
                topLevel tree <= level (snd item))
  /\ ((exists item, In item tree /\ hasGeometry (snd item) = true) ->
      exists item, In item tree /\ hasGeometry (snd item) = true
                   /\ level (snd item) = topLevel tree)
  /\ (forall node, In node (collectNodes tree) <->
        exists key, In (key, node) tree /\ selected (topLevel tree) node = true)
  /\ (forall AR' : Archive,
        (forall node, In node (collectNodes tree) ->
                      @loadVertices AR' node = @loadVertices AR node) ->
        @measureMesh G AR' tree = @measureMesh G AR tree)
  /\ (Forall (fun node => loadVertices node <> []) (collectNodes tree) ->
      extents_eq (measureMesh tree)
        (accumulate (map (fun v => project (conv v))
                       (flat_map loadVertices (collectNodes tree)))))
  /\ (forall extra tree',
        merge tree extra tree' ->
        Forall (fun item => hasGeometry (snd item) = false
                            \/ topLevel tree < level (snd item)) extra ->
        topLevel tree' = topLevel tree
        /\ collectNodes tree' = collectNodes tree
        /\ measureMesh tree' = measureMesh tree).
Proof.
  intro Hint. repeat apply conj.
  - intros item HIn Hg. apply fold_min_le_elem; assumption.
  - intros (g & HIn & Hg).
    destruct (fold_min_cases tree INT_MAX) as [E | (item & Hitem)].
    + exists g. repeat split; auto.
      pose proof (fold_min_le_elem tree INT_MAX g HIn Hg) as Hle.
      unfold int_levels in Hint. rewrite Forall_forall in Hint.
      specialize (Hint g HIn). unfold topLevel. lia.
    + exists item. exact Hitem.
  - intro node. rewrite collectNodes_In. unfold selected.
    split; intros (key & HIn & H); exists key; split; auto.
    + destruct H as (-> & ->). now rewrite Z.eqb_refl.
    + apply andb_true_iff in H. destruct H as (Hl & Hg).
      split; [exact Hg | now apply Z.eqb_eq].
  - intros AR' Hsame. unfold measureMesh. apply measureNodes_ext, Hsame.
  - intro Hne. unfold measureMesh.
    apply (measureNodes_accumulate (collectNodes tree));
      [exact Hne | apply Permutation_refl | apply Permutation_refl].
  - intros extra tree' Hm Hextra.
    assert (Htop : topLevel tree' = topLevel tree)
      by (unfold topLevel; apply (topLevel_merge tree extra tree' INT_MAX Hm Hextra)).
    assert (Hcol : collectNodes tree' = collectNodes tree).
    { unfold collectNodes. rewrite Htop. f_equal.
      apply (filter_merge _ tree extra tree' Hm).
      eapply Forall_impl; [| exact Hextra]. cbn.
      intros item [Hg | Hl].
      - rewrite Hg. apply andb_false_r.
      - apply andb_false_iff. left. apply Z.eqb_neq. lia. }
    repeat split; auto. unfold measureMesh. now rewrite Hcol.
Qed.

End LevelSelection.

Lemma measureMesh_level_selection_witness :
  int_levels Reference.tree
  /\ topLevel Reference.tree = 2
  /\ topLevel Reference.tree' = topLevel Reference.tree
  /\ @measureMesh Reference.geo Reference.archive Reference.tree'
     = @measureMesh Reference.geo Reference.archive Reference.tree.
Proof.
  assert (Hint : int_levels Reference.tree)
    by (repeat constructor; cbn; discriminate).
  destruct (@measureMesh_level_selection Reference.geo Reference.archive
              Reference.tree Hint) as (_ & _ & _ & _ & _ & Hadd).
  destruct (Hadd [("inner"%string, Reference.inner); ("root"%string, Reference.root)]
              Reference.tree') as (Htop & _ & Hres).
  - repeat constructor.
  - repeat constructor.
  - repeat split; auto.
Defined.

(** ** write *)

Section Write.

Context {G : Geo} {AR : Archive} {TX : Texturing}.

Lemma bind_Ok {A B : Type} (r : result A) (k : A -> result B) (b : B) :
  bind r k = Ok b -> exists a, r = Ok a /\ k a = Ok b.
Proof. destruct r as [a | f]; cbn; [eauto | discriminate]. Qed.

(** What [rebuild] leaves of the submesh it is given. *)
Lemma rebuild_frame (submesh sm : SubMesh) (tex : IStream) (otx : Mat) :
  rebuild submesh tex = Ok (sm, otx) ->
  vertices (mesh sm) = vertices (mesh submesh)
  /\ regions sm = regions submesh
  /\ exists tx tcs fs patches asize,
       stream2mat tex = Ok tx
       /\ rebuildMesh (mkSize2 (cols tx) (rows tx)) submesh = Ok (tcs, fs, patches, asize)
       /\ tCoords (mesh sm) = tcs /\ faces (mesh sm) = fs
       /\ copyPatches tx (mkSize2 (cols tx) (rows tx)) asize
            (map rectOfUv (map (remapRegion (mkSize2 (cols tx) (rows tx)))
                             (regions submesh)))
            patches (mat_new (height asize) (width asize) Vec3b_zero) = Ok otx.
Proof.
  unfold rebuild. intro H.
  apply bind_Ok in H. destruct H as (tx & Htx & H).
  apply bind_Ok in H. destruct H as ([[[tcs fs] patches] asize] & Hmesh & H).
  apply bind_Ok in H. destruct H as (otx' & Hcopy & H).
  inversion H; subst. cbn. repeat split.
  exists tx, tcs, fs, patches, asize. auto.
Qed.

Lemma writeSubMesh_spec (ctr : Point2d) (node : Node) (k : nat)
    (submesh : SubMesh) (out : Output) :
  writeSubMesh ctr node k submesh = Ok out ->
  vertices (objMesh out) = map (fun v => vsub (conv v) ctr) (vertices (mesh submesh))
  /\ (regions submesh = [] ->
      tCoords (objMesh out) = tCoords (mesh submesh)
      /\ texFile out = Copied (texture node k)).
Proof.
  unfold writeSubMesh. intro H.
  apply bind_Ok in H. destruct H as (href & _ & H).
  destruct (regions submesh) as [|r rs] eqn:Hr.
  - inversion H; subst. cbn. auto.
  - apply bind_Ok in H. destruct H as ((sm & otx) & Hre & H).
    inversion H; subst. cbn.
    apply rebuild_frame in Hre. destruct Hre as (Hv & _). cbn in Hv.
    split; [exact Hv | discriminate].
Qed.

Lemma writeSubMeshes_spec (ctr : Point2d) (node : Node) (submeshes : list SubMesh) :
  forall (k : nat) (outs : list Output),
    writeSubMeshes ctr node k submeshes = Ok outs ->
    Forall2 (fun submesh out =>
               vertices (objMesh out)
               = map (fun v => vsub (conv v) ctr) (vertices (mesh submesh))
               /\ (regions submesh = [] ->
                   tCoords (objMesh out) = tCoords (mesh submesh)))
      submeshes outs.
Proof.
  induction submeshes as [|sm sms IH]; intros k outs H; cbn in H.
  - inversion H. constructor.
  - apply bind_Ok in H. destruct H as (o & Ho & H).
    apply bind_Ok in H. destruct H as (os & Hos & H).
    inversion H; subst. constructor.
    + apply writeSubMesh_spec in Ho. destruct Ho as (Hv & Ht).
      split; [exact Hv |]. intro Hr. apply (Ht Hr).
    + apply (IH _ _ Hos).
Qed.

(** C3.  For every node and every submesh that [write] processes, the
    emitted mesh has each vertex [v] replaced by [conv v - center], where
    [center] is the center of the measured extents; the localization step
    leaves the texture coordinates (and the faces) unchanged, so that a
    submesh without regions is emitted with its texture coordinates as
    loaded. *)
Theorem write_localizes_vertices (tree : Tree) (outs : list (list Output)) :
  write tree = Ok outs ->
  let ctr := center (measureMesh tree) in
  Forall2
    (fun item nodeOuts =>
       Forall2
         (fun submesh out =>
            vertices (objMesh out)
            = map (fun v => vsub (conv v) ctr) (vertices (mesh submesh))
            /\ (regions submesh = [] ->
                tCoords (objMesh out) = tCoords (mesh submesh)))
         (loadGeometry (snd item)) nodeOuts)
    tree outs
  /\ (forall m : Mesh,
        vertices (localize ctr m) = map (fun v => vsub (conv v) ctr) (vertices m)
        /\ tCoords (localize ctr m) = tCoords m
        /\ faces (localize ctr m) = faces m).
Proof.
  intros H ctr. split; [| intro m; repeat split].
  unfold write in H. cbv zeta in H. fold ctr in H. clearbody ctr. revert outs H.
  induction tree as [|item tree IH]; intros outs H; cbn in H.
  - inversion H. constructor.
  - apply bind_Ok in H. destruct H as (o & Ho & H).
    apply bind_Ok in H. destruct H as (os & Hos & H).
    inversion H; subst. constructor.
    + apply (writeSubMeshes_spec ctr (snd item) _ 0%nat o Ho).
    + apply (IH _ Hos).
Qed.

End Write.

Lemma write_localizes_vertices_witness :
  exists outs,
    @write Reference.geo Reference.archive Reference.texturing Reference.tree = Ok outs
    /\ Forall2
         (fun item nodeOuts =>
            Forall2
              (fun submesh out =>
                 vertices (objMesh out)
                 = map (fun v => @vsub Reference.geo (@conv Reference.geo v)
                                   (center (@measureMesh Reference.geo Reference.archive
                                              Reference.tree)))
                     (vertices (mesh submesh))
                 /\ (regions submesh = [] ->
                     tCoords (objMesh out) = tCoords (mesh submesh)))
              (@loadGeometry Reference.archive (snd item)) nodeOuts)
         Reference.tree outs.
Proof.
  destruct (@write Reference.geo Reference.archive Reference.texturing Reference.tree)
    as [outs | f] eqn:E.
  - exists outs. split; [reflexivity |].
    apply (@write_localizes_vertices Reference.geo Reference.archive
             Reference.texturing Reference.tree outs E).
  - exfalso. vm_compute in E. discriminate E.
Defined.

(** ** Vectors and folds *)

Lemma at_Ok {A : Type} (v : list A) (i : nat) (a : A) :
  at_ v i = Ok a <-> nth_error v i = Some a.
Proof.
  unfold at_. destruct (nth_error v i); split; intro H; inversion H; reflexivity.
Qed.

Lemma at_lt {A : Type} (v : list A) (i : nat) :
  (i < length v)%nat -> exists a, at_ v i = Ok a.
Proof.
  intro H. unfold at_. destruct (nth_error v i) eqn:E; [eauto |].
  apply nth_error_None in E. lia.
Qed.

Lemma at_fault {A : Type} (v : list A) (i : nat) (f : fault) :
  at_ v i = Fault f -> f = OutOfBounds /\ (length v <= i)%nat.
Proof.
  unfold at_. destruct (nth_error v i) eqn:E; intro H; inversion H.
  split; [reflexivity | now apply nth_error_None].
Qed.

Lemma set_nth_length {A : Type} (v : list A) (i : nat) (a : A) :
  length (set_nth v i a) = length v.
Proof.
  revert i. induction v as [|x v IH]; intros [|i]; cbn; auto.
Qed.

Lemma set_nth_lookup {A : Type} (v : list A) (i j : nat) (a : A) :
  (i < length v)%nat ->
  nth_error (set_nth v i a) j = if (j =? i)%nat then Some a else nth_error v j.
Proof.
  revert i j. induction v as [|x v IH]; intros [|i] [|j] H; cbn in *; try lia; auto.
  apply IH. lia.
Qed.

Lemma assign_Ok {A : Type} (v v' : list A) (i : nat) (a : A) :
  assign v i a = Ok v' <-> (i < length v)%nat /\ v' = set_nth v i a.
Proof.
  unfold assign. destruct (Nat.ltb_spec i (length v)); split.
  - intro E. inversion E. auto.
  - intros (_ & ->). reflexivity.
  - discriminate.
  - intros (Hlt & _). lia.
Qed.

Lemma assign_fault {A : Type} (v : list A) (i : nat) (a : A) (f : fault) :
  assign v i a = Fault f -> f = OutOfBounds /\ (length v <= i)%nat.
Proof.
  unfold assign. destruct (Nat.ltb_spec i (length v)) as [Hlt | Hge]; intro E; inversion E. auto.
Qed.

Lemma bind_fault {A B : Type} (r : result A) (k : A -> result B) (f : fault) :
  bind r k = Fault f -> r = Fault f \/ exists a, r = Ok a /\ k a = Fault f.
Proof. destruct r as [a | g]; cbn; [eauto | intro H; left; inversion H; reflexivity]. Qed.

Lemma foldM_invariant {A S : Type} (Inv : S -> Prop) (body : S -> A -> result S)
    (xs : list A) :
  (forall s a s', In a xs -> Inv s -> body s a = Ok s' -> Inv s') ->
  forall s s', Inv s -> foldM body xs s = Ok s' -> Inv s'.
Proof.
  induction xs as [|x xs IH]; intros Hstep s s' Hs H; cbn in H.
  - inversion H; subst. exact Hs.
  - apply bind_Ok in H. destruct H as (s1 & H1 & H).
    apply (IH (fun s a s' Ha => Hstep s a s' (or_intror Ha)) s1 s'); [| exact H].
    apply (Hstep s x s1 (or_introl eq_refl) Hs H1).
Qed.



(** ** Guarded visits of texture coordinates *)

Lemma visit_spec (F : Point2d -> Point2d) (index : nat)
    (seen seen' : list bool) (tcs tcs' : list Point2d) :
  length seen = length tcs ->
  visit F index (seen, tcs) = Ok (seen', tcs') ->
  (index < length tcs)%nat
  /\ length seen' = length seen /\ length tcs' = length tcs
  /\ (forall j, nth j seen' false = nth j seen false || (index =? j)%nat)
  /\ (forall j, nth_error tcs' j
                = if negb (nth j seen false) && (index =? j)%nat
                  then option_map F (nth_error tcs j) else nth_error tcs j).
Proof.
  intros Hlen H. unfold visit in H.
  apply bind_Ok in H. destruct H as (iseen & Hseen & H).
  apply at_Ok in Hseen.
  assert (Hlt : (index < length tcs)%nat).
  { rewrite <- Hlen. apply nth_error_Some. congruence. }
  assert (Hnth : nth index seen false = iseen) by (apply nth_error_nth; exact Hseen).
  destruct iseen.
  - inversion H; subst. repeat split; auto.
    + intro j. destruct (Nat.eqb_spec index j) as [<- |]; [| now rewrite orb_false_r].
      rewrite Hnth. reflexivity.
    + intro j. destruct (Nat.eqb_spec index j) as [<- |]; [| now rewrite andb_false_r].
      rewrite Hnth. reflexivity.
  - apply bind_Ok in H. destruct H as (tc0 & Htc & H). apply at_Ok in Htc.
    apply bind_Ok in H. destruct H as (tcs1 & Ha1 & H). apply assign_Ok in Ha1.
    apply bind_Ok in H. destruct H as (seen1 & Ha2 & H). apply assign_Ok in Ha2.
    destruct Ha1 as (_ & ->). destruct Ha2 as (Hlt2 & ->).
    inversion H; subst. rewrite !set_nth_length. repeat split; auto.
    + intro j. destruct (Nat.eqb_spec index j) as [<- | Hne].
      * rewrite orb_true_r. apply nth_error_nth.
        rewrite set_nth_lookup by exact Hlt2. now rewrite Nat.eqb_refl.
      * rewrite orb_false_r.
        destruct (nth_error seen j) eqn:E.
        -- rewrite (nth_error_nth _ _ _ E). apply nth_error_nth.
           rewrite set_nth_lookup by exact Hlt2.
           destruct (Nat.eqb_spec j index); [congruence | exact E].
        -- assert (Hj := E). apply nth_error_None in Hj.
           rewrite !nth_overflow; auto. now rewrite set_nth_length.
    + intro j. rewrite set_nth_lookup by exact Hlt.
      destruct (Nat.eqb_spec index j) as [<- | Hne].
      * rewrite Nat.eqb_refl, Hnth, Htc. reflexivity.
      * rewrite andb_false_r. destruct (Nat.eqb_spec j index); [congruence | reflexivity].
Qed.

Lemma visit_total (F : Point2d -> Point2d) (index : nat)
    (seen : list bool) (tcs : list Point2d) :
  length seen = length tcs -> (index < length tcs)%nat ->
  exists st, visit F index (seen, tcs) = Ok st.
Proof.
  intros Hlen Hlt. unfold visit.
  destruct (at_lt seen index) as (iseen & ->); [lia |]. cbn.
  destruct iseen; [eauto |].
  destruct (at_lt tcs index Hlt) as (tc0 & ->). cbn.
  unfold assign. rewrite Hlen.
  destruct (Nat.ltb_spec index (length tcs)); [| lia]. cbn. eauto.
Qed.

Lemma visit_fault (F : Point2d -> Point2d) (index : nat)
    (st : list bool * list Point2d) (f : fault) :
  visit F index st = Fault f -> f = OutOfBounds.
Proof.
  destruct st as (seen, tcs). unfold visit. intro H.
  apply bind_fault in H. destruct H as [H | (iseen & _ & H)].
  { now apply at_fault in H. }
  destruct iseen; [discriminate |].
  apply bind_fault in H. destruct H as [H | (tc0 & _ & H)].
  { now apply at_fault in H. }
  apply bind_fault in H. destruct H as [H | (tcs1 & _ & H)].
  { now apply assign_fault in H. }
  apply bind_fault in H. destruct H as [H | (seen1 & _ & H)].
  { now apply assign_fault in H. }
  discriminate.
Qed.

Lemma visit_face_spec (g : Point2d -> Point2d) (face : Face)
    (seen seen' : list bool) (tcs tcs' : list Point2d) :
  length seen = length tcs ->
  (st <- visit g (ta face) (seen, tcs) ;;
   st <- visit g (tb face) st ;;
   visit g (tc face) st) = Ok (seen', tcs') ->
  ((ta face < length tcs)%nat /\ (tb face < length tcs)%nat
   /\ (tc face < length tcs)%nat)
  /\ length seen' = length seen /\ length tcs' = length tcs
  /\ (forall j, nth j seen' false = nth j seen false || uses face j)
  /\ (forall j, nth_error tcs' j
                = if negb (nth j seen false) && uses face j
                  then option_map g (nth_error tcs j) else nth_error tcs j).
Proof.
  intros Hlen H.
  apply bind_Ok in H. destruct H as ((seen1, tcs1) & H1 & H).
  apply bind_Ok in H. destruct H as ((seen2, tcs2) & H2 & H3).
  apply (visit_spec g _ _ _ _ _ Hlen) in H1.
  destruct H1 as (La & Ls1 & Lt1 & S1 & T1).
  assert (Hlen1 : length seen1 = length tcs1) by congruence.
  apply (visit_spec g _ _ _ _ _ Hlen1) in H2.
  destruct H2 as (Lb & Ls2 & Lt2 & S2 & T2).
  assert (Hlen2 : length seen2 = length tcs2) by congruence.
  apply (visit_spec g _ _ _ _ _ Hlen2) in H3.
  destruct H3 as (Lc & Ls3 & Lt3 & S3 & T3).
  repeat split; try congruence; try lia.
  - intro j. rewrite S3, S2, S1. unfold uses. now rewrite !orb_assoc.
  - intro j. rewrite T3, S2, S1, T2, S1, T1. unfold uses.
    destruct (nth j seen false), (ta face =? j)%nat, (tb face =? j)%nat,
      (tc face =? j)%nat; reflexivity.
Qed.

Lemma visitFaces_spec (F : nat -> option (Point2d -> Point2d)) (fs : list Face) :
  forall (seen seen' : list bool) (tcs tcs' : list Point2d),
    length seen = length tcs ->
    visitFaces F fs (seen, tcs) = Ok (seen', tcs') ->
    Forall (fun face => F (imageId face) <> None
                        /\ (ta face < length tcs)%nat /\ (tb face < length tcs)%nat
                        /\ (tc face < length tcs)%nat) fs
    /\ length seen' = length seen /\ length tcs' = length tcs
    /\ (forall j, nth_error tcs' j
                  = if nth j seen false then nth_error tcs j
                    else match owner fs j with
                         | Some k =>
                             match F k with
                             | Some g => option_map g (nth_error tcs j)
                             | None => nth_error tcs j
                             end
                         | None => nth_error tcs j
                         end).
Proof.
  induction fs as [|face fs IH]; intros seen seen' tcs tcs' Hlen H;
    cbn [visitFaces] in H.
  - inversion H; subst. repeat split; auto.
    intro j. cbn. now destruct (nth j seen' false).
  - destruct (F (imageId face)) as [g |] eqn:EF; [| discriminate].
    assert (H' : exists st,
               (st <- visit g (ta face) (seen, tcs) ;;
                st <- visit g (tb face) st ;;
                visit g (tc face) st) = Ok st
               /\ visitFaces F fs st = Ok (seen', tcs')).
    { apply bind_Ok in H. destruct H as (s1 & H1 & H).
      apply bind_Ok in H. destruct H as (s2 & H2 & H).
      apply bind_Ok in H. destruct H as (s3 & H3 & H).
      exists s3. split; [| exact H]. rewrite H1. cbn [bind]. rewrite H2. cbn [bind]. exact H3. }
    destruct H' as ((seen3, tcs3) & Hface & Hrest).
    apply (visit_face_spec g face _ _ _ _ Hlen) in Hface.
    destruct Hface as (Lf & Ls & Lt & S3 & T3).
    assert (Hlen3 : length seen3 = length tcs3) by congruence.
    destruct (IH _ _ _ _ Hlen3 Hrest) as (Hall & Ls' & Lt' & T').
    repeat split; try congruence.
    + constructor.
      * rewrite EF. split; [discriminate | exact Lf].
      * rewrite Lt in Hall. exact Hall.
    + intro j. rewrite T', S3, T3. cbn [owner].
      destruct (nth j seen false), (uses face j); cbn; try reflexivity.
      now rewrite EF.
Qed.

Lemma visitFaces_total (F : nat -> option (Point2d -> Point2d)) (fs : list Face) :
  forall (seen : list bool) (tcs : list Point2d),
    length seen = length tcs ->
    Forall (fun face => F (imageId face) <> None
                        /\ (ta face < length tcs)%nat /\ (tb face < length tcs)%nat
                        /\ (tc face < length tcs)%nat) fs ->
    exists st, visitFaces F fs (seen, tcs) = Ok st.
Proof.
  induction fs as [|face fs IH]; intros seen tcs Hlen Hall; cbn [visitFaces].
  - eauto.
  - inversion Hall as [| ? ? (HF & La & Lb & Lc) Hrest]; subst.
    destruct (F (imageId face)) as [g |]; [| congruence].
    destruct (visit_total g (ta face) seen tcs Hlen La) as ((seen1, tcs1) & H1).
    rewrite H1. cbn [bind].
    apply (visit_spec g _ _ _ _ _ Hlen) in H1. destruct H1 as (_ & Ls1 & Lt1 & _).
    assert (Hlen1 : length seen1 = length tcs1) by congruence.
    destruct (visit_total g (tb face) seen1 tcs1 Hlen1) as ((seen2, tcs2) & H2);
      [lia |].
    rewrite H2. cbn [bind].
    apply (visit_spec g _ _ _ _ _ Hlen1) in H2. destruct H2 as (_ & Ls2 & Lt2 & _).
    assert (Hlen2 : length seen2 = length tcs2) by congruence.
    destruct (visit_total g (tc face) seen2 tcs2 Hlen2) as ((seen3, tcs3) & H3);
      [lia |].
    rewrite H3. cbn [bind].
    apply (visit_spec g _ _ _ _ _ Hlen2) in H3. destruct H3 as (_ & Ls3 & Lt3 & _).
    apply IH; [congruence |].
    eapply Forall_impl; [| exact Hrest]. cbn. intros f (? & ? & ? & ?).
    repeat split; auto; lia.
Qed.

Lemma visitFaces_fault (F : nat -> option (Point2d -> Point2d)) (fs : list Face) :
  forall (st : list bool * list Point2d) (f : fault),
    visitFaces F fs st = Fault f -> f = OutOfBounds.
Proof.
  induction fs as [|face fs IH]; intros st f H; cbn [visitFaces] in H.
  - discriminate.
  - destruct (F (imageId face)) as [g |]; [| now inversion H].
    apply bind_fault in H. destruct H as [H | (s1 & _ & H)].
    { now apply visit_fault in H. }
    apply bind_fault in H. destruct H as [H | (s2 & _ & H)].
    { now apply visit_fault in H. }
    apply bind_fault in H. destruct H as [H | (s3 & _ & H)].
    { now apply visit_fault in H. }
    apply (IH _ _ H).
Qed.

(** ** The two passes of rebuild over the faces *)

Section Rebuild.

Context {TX : Texturing}.

Lemma expand_Ok (k : nat) (rsize : Size2f) (index : nat) (st st' : ExpandState) :
  expand k rsize index st = Ok st' ->
  visit (remapTc rsize) index (es_seen st, es_tCoords st)
  = Ok (es_seen st', es_tCoords st')
  /\ length (es_uvPatches st') = length (es_uvPatches st).
Proof.
  unfold expand, visit. intro H.
  apply bind_Ok in H. destruct H as (iseen & -> & H). cbn [bind].
  destruct iseen.
  - inversion H; subst. auto.
  - apply bind_Ok in H. destruct H as (tc0 & -> & H). cbn [bind].
    apply bind_Ok in H. destruct H as (tcs1 & -> & H). cbn [bind].
    apply bind_Ok in H. destruct H as (uv & _ & H).
    apply bind_Ok in H. destruct H as (uvs1 & Huvs & H).
    apply bind_Ok in H. destruct H as (seen1 & -> & H). cbn [bind].
    inversion H; subst. cbn. split; [reflexivity |].
    apply assign_Ok in Huvs. destruct Huvs as (_ & ->). apply set_nth_length.
Qed.

Lemma expand_total (k : nat) (rsize : Size2f) (index : nat) (st : ExpandState) :
  length (es_seen st) = length (es_tCoords st) ->
  (index < length (es_tCoords st))%nat ->
  (k < length (es_uvPatches st))%nat ->
  exists st', expand k rsize index st = Ok st'.
Proof.
  intros Hlen Hi Hk. unfold expand.
  destruct (at_lt (es_seen st) index) as (iseen & ->); [lia |]. cbn [bind].
  destruct iseen; [eauto |].
  destruct (at_lt (es_tCoords st) index Hi) as (tc0 & ->). cbn [bind].
  destruct (at_lt (es_uvPatches st) k Hk) as (uv & ->).
  unfold assign. rewrite Hlen.
  destruct (Nat.ltb_spec index (length (es_tCoords st))); [| lia].
  destruct (Nat.ltb_spec k (length (es_uvPatches st))); [| lia].
  cbn. eauto.
Qed.

Lemma expand_fault (k : nat) (rsize : Size2f) (index : nat) (st : ExpandState)
    (f : fault) :
  expand k rsize index st = Fault f -> f = OutOfBounds.
Proof.
  unfold expand. intro H.
  apply bind_fault in H. destruct H as [H | (iseen & _ & H)].
  { now apply at_fault in H. }
  destruct iseen; [discriminate |].
  apply bind_fault in H. destruct H as [H | (tc0 & _ & H)].
  { now apply at_fault in H. }
  apply bind_fault in H. destruct H as [H | (tcs1 & _ & H)].
  { now apply assign_fault in H. }
  apply bind_fault in H. destruct H as [H | (uv & _ & H)].
  { now apply at_fault in H. }
  apply bind_fault in H. destruct H as [H | (uvs1 & _ & H)].
  { now apply assign_fault in H. }
  apply bind_fault in H. destruct H as [H | (seen1 & _ & H)].
  { now apply assign_fault in H. }
  discriminate.
Qed.

Lemma foldM_expandFace_Ok (rgs : list Extents2) (fs : list Face) :
  forall st st' : ExpandState,
    foldM (expandFace rgs) fs st = Ok st' ->
    visitFaces (scaleOf rgs) fs (es_seen st, es_tCoords st)
    = Ok (es_seen st', es_tCoords st')
    /\ length (es_uvPatches st') = length (es_uvPatches st).
Proof.
  induction fs as [|face fs IH]; intros st st' H; cbn [foldM visitFaces] in *.
  - inversion H; subst. auto.
  - apply bind_Ok in H. destruct H as (st3 & Hface & Hrest).
    unfold expandFace in Hface.
    apply bind_Ok in Hface. destruct Hface as (region & Hrg & Hface).
    apply bind_Ok in Hface. destruct Hface as (uv & _ & Hface).
    apply bind_Ok in Hface. destruct Hface as (st1 & H1 & Hface).
    apply bind_Ok in Hface. destruct Hface as (st2 & H2 & H3).
    apply at_Ok in Hrg. unfold scaleOf at 1. rewrite Hrg. cbn [option_map].
    apply expand_Ok in H1. destruct H1 as (-> & L1). cbn [bind].
    apply expand_Ok in H2. destruct H2 as (-> & L2). cbn [bind].
    apply expand_Ok in H3. destruct H3 as (-> & L3). cbn [bind].
    destruct (IH _ _ Hrest) as (-> & L). split; [reflexivity | congruence].
Qed.

Lemma foldM_expandFace_fault (rgs : list Extents2) (fs : list Face) :
  forall (st : ExpandState) (f : fault),
    foldM (expandFace rgs) fs st = Fault f -> f = OutOfBounds.
Proof.
  induction fs as [|face fs IH]; intros st f H; cbn [foldM] in H.
  - discriminate.
  - apply bind_fault in H. destruct H as [H | (st3 & _ & H)]; [| apply (IH _ _ H)].
    unfold expandFace in H.
    apply bind_fault in H. destruct H as [H | (region & _ & H)].
    { now apply at_fault in H. }
    apply bind_fault in H. destruct H as [H | (uv & _ & H)].
    { now apply at_fault in H. }
    apply bind_fault in H. destruct H as [H | (st1 & _ & H)].
    { now apply expand_fault in H. }
    apply bind_fault in H. destruct H as [H | (st2 & _ & H)].
    { now apply expand_fault in H. }
    now apply expand_fault in H.
Qed.

Lemma face_in_bounds_true (nregions ntcs : nat) (face : Face) :
  face_in_bounds nregions ntcs face = true <->
  (imageId face < nregions)%nat /\ (ta face < ntcs)%nat
  /\ (tb face < ntcs)%nat /\ (tc face < ntcs)%nat.
Proof.
  unfold face_in_bounds. rewrite !andb_true_iff, !Nat.ltb_lt. tauto.
Qed.

Lemma foldM_expandFace_total (rgs : list Extents2) (fs : list Face) :
  forall st : ExpandState,
    length (es_seen st) = length (es_tCoords st) ->
    length (es_uvPatches st) = length rgs ->
    forallb (face_in_bounds (length rgs) (length (es_tCoords st))) fs = true ->
    exists st', foldM (expandFace rgs) fs st = Ok st'.
Proof.
  induction fs as [|face fs IH]; intros st Hlen Huv Hall; cbn [foldM forallb] in *.
  - eauto.
  - apply andb_true_iff in Hall. destruct Hall as (Hface & Hall).
    apply face_in_bounds_true in Hface. destruct Hface as (Lk & La & Lb & Lc).
    assert (Hstep : exists st3, expandFace rgs st face = Ok st3
                                /\ length (es_seen st3) = length (es_tCoords st3)
                                /\ length (es_tCoords st3) = length (es_tCoords st)
                                /\ length (es_uvPatches st3) = length rgs).
    { unfold expandFace.
      destruct (at_lt rgs (imageId face) Lk) as (region & ->). cbn [bind].
      destruct (at_lt (es_uvPatches st) (imageId face)) as (uv & ->); [lia |].
      cbn [bind].
      destruct (expand_total (imageId face) (size_of region) (ta face) st)
        as (st1 & H1); [auto | auto | lia |].
      rewrite H1. cbn [bind]. apply expand_Ok in H1. destruct H1 as (V1 & U1).
      apply visit_spec in V1; [| exact Hlen]. destruct V1 as (_ & S1 & T1 & _).
      destruct (expand_total (imageId face) (size_of region) (tb face) st1)
        as (st2 & H2); [congruence | lia | lia |].
      rewrite H2. cbn [bind]. apply expand_Ok in H2. destruct H2 as (V2 & U2).
      apply visit_spec in V2; [| congruence]. destruct V2 as (_ & S2 & T2 & _).
      destruct (expand_total (imageId face) (size_of region) (tc face) st2)
        as (st3 & H3); [congruence | lia | lia |].
      rewrite H3. apply expand_Ok in H3. destruct H3 as (V3 & U3).
      apply visit_spec in V3; [| congruence]. destruct V3 as (_ & S3 & T3 & _).
      exists st3. repeat split; congruence. }
    destruct Hstep as (st3 & -> & L1 & L2 & L3). cbn [bind].
    apply IH; auto. now rewrite L2.
Qed.

Lemma mapFaces_visitFaces (asize : Size2) (patches : list Patch) (fs : list Face) :
  forall st,
    mapFaces asize patches fs st
    = (st' <- visitFaces (placeOf asize patches) fs st ;;
       Ok (st', map resetImageId fs)).
Proof.
  induction fs as [|face fs IH]; intro st; cbn [mapFaces visitFaces map].
  - reflexivity.
  - unfold placeOf at 1. unfold at_.
    destruct (nth_error patches (imageId face)) as [patch |]; cbn [bind option_map];
      [| reflexivity].
    change (mapTc asize patch) with (visit (fun tc => normalize asize (pmap patch tc))).
    destruct (visit _ (ta face) st) as [st1 | f]; cbn [bind]; [| reflexivity].
    destruct (visit _ (tb face) st1) as [st2 | f]; cbn [bind]; [| reflexivity].
    destruct (visit _ (tc face) st2) as [st3 | f]; cbn [bind]; [| reflexivity].
    rewrite IH.
    destruct (visitFaces (placeOf asize patches) fs st3) as [st4 | f]; reflexivity.
Qed.

Lemma owner_In (fs : list Face) (j k : nat) :
  owner fs j = Some k ->
  exists face, In face fs /\ uses face j = true /\ imageId face = k.
Proof.
  induction fs as [|face fs IH]; cbn; [discriminate |].
  destruct (uses face j) eqn:E.
  - intro H. inversion H. exists face. auto.
  - intro H. destruct (IH H) as (f & Hf & Hu & Hk). exists f. auto.
Qed.

Lemma owner_shared (fs : list Face) (j : nat) (face : Face) :
  In face fs -> uses face j = true ->
  (forall f, In f fs -> uses f j = true -> imageId f = imageId face) ->
  owner fs j = Some (imageId face).
Proof.
  induction fs as [|x fs IH]; intros HIn Hu Hall; cbn.
  - destruct HIn.
  - destruct (uses x j) eqn:E.
    + f_equal. apply Hall; [now left | exact E].
    + destruct HIn as [-> | HIn]; [congruence |].
      apply IH; auto. intros f Hf. apply Hall. now right.
Qed.

Lemma uses_lt (face : Face) (j n : nat) :
  uses face j = true ->
  (ta face < n)%nat -> (tb face < n)%nat -> (tc face < n)%nat -> (j < n)%nat.
Proof.
  unfold uses. rewrite !orb_true_iff, !Nat.eqb_eq. lia.
Qed.

Lemma nth_repeat_false (j n : nat) : nth j (repeat false n) false = false.
Proof.
  revert j. induction n as [|n IH]; intros [|j]; cbn; auto.
Qed.

(** The result of the two passes of [rebuild] over the faces. *)
Lemma rebuildMesh_spec (txSize : Size2) (submesh : SubMesh)
    (tcs : list Point2d) (fs : list Face) (patches : list Patch) (asize : Size2) :
  rebuildMesh txSize submesh = Ok (tcs, fs, patches, asize) ->
  fs = map resetImageId (faces (mesh submesh))
  /\ length patches = length (regions submesh)
  /\ length tcs = length (tCoords (mesh submesh))
  /\ faces_in_bounds submesh = true
  /\ forall j,
       match owner (faces (mesh submesh)) j with
       | Some k =>
           exists tc0 region patch,
             nth_error (tCoords (mesh submesh)) j = Some tc0
             /\ nth_error (map (remapRegion txSize) (regions submesh)) k = Some region
             /\ nth_error patches k = Some patch
             /\ nth_error tcs j
                = Some (normalize asize (pmap patch (remapTc (size_of region) tc0)))
       | None => nth_error tcs j = nth_error (tCoords (mesh submesh)) j
       end.
Proof.
  unfold rebuildMesh. intro H.
  apply bind_Ok in H. destruct H as (st & Hexp & H).
  rewrite mapFaces_visitFaces in H.
  apply bind_Ok in H. destruct H as (((seen2, tcs2), fs2) & Hmap & H).
  apply bind_Ok in Hmap. destruct Hmap as ((seen2', tcs2') & Hvis & Hmap).
  inversion Hmap; subst seen2' tcs2' fs2. clear Hmap.
  inversion H; subst tcs fs patches asize. clear H. cbn [snd].
  apply foldM_expandFace_Ok in Hexp. cbn [es_seen es_tCoords es_uvPatches] in Hexp.
  destruct Hexp as (Hexp & Luv).
  apply visitFaces_spec in Hexp; [| apply repeat_length].
  destruct Hexp as (All1 & Ls1 & Lt1 & T1).
  apply visitFaces_spec in Hvis; [| apply repeat_length].
  destruct Hvis as (All2 & Ls2 & Lt2 & T2).
  set (rgs := map (remapRegion txSize) (regions submesh)) in *.
  set (patches := map (packOne (map patchOfUv (es_uvPatches st)))
                    (seq 0 (length (map patchOfUv (es_uvPatches st))))) in *.
  set (asize := packSize (map patchOfUv (es_uvPatches st))) in *.
  assert (Lp : length patches = length (regions submesh)).
  { unfold patches. rewrite length_map, length_seq, length_map.
    etransitivity; [exact Luv | apply repeat_length]. }
  assert (Lr : length rgs = length (regions submesh))
    by (unfold rgs; apply length_map).
  repeat split; auto; try congruence.
  - unfold faces_in_bounds. apply forallb_forall. intros face Hface.
    rewrite Forall_forall in All1. destruct (All1 face Hface) as (HF & La & Lb & Lc).
    apply face_in_bounds_true. repeat split; auto.
    rewrite <- Lr. apply nth_error_Some. unfold scaleOf in HF.
    destruct (nth_error rgs (imageId face)); [discriminate | now elim HF].
  - intro j. specialize (T1 j). specialize (T2 j).
    rewrite nth_repeat_false in T1, T2.
    destruct (owner (faces (mesh submesh)) j) as [k |] eqn:Eo; [| congruence].
    destruct (owner_In _ _ _ Eo) as (face & Hface & Hu & <-).
    rewrite Forall_forall in All1, All2.
    destruct (All1 face Hface) as (HF1 & La & Lb & Lc).
    destruct (All2 face Hface) as (HF2 & _).
    unfold scaleOf in HF1, T1. unfold placeOf in HF2, T2.
    destruct (nth_error rgs (imageId face)) as [region |]; [| now elim HF1].
    destruct (nth_error patches (imageId face)) as [patch |]; [| now elim HF2].
    cbn [option_map] in T1, T2.
    destruct (nth_error (tCoords (mesh submesh)) j) as [tc0 |] eqn:E0.
    + exists tc0, region, patch. rewrite T2, T1. cbn. auto.
    + apply nth_error_None in E0. pose proof (uses_lt face j _ Hu La Lb Lc). lia.
Qed.

Lemma rebuildMesh_total (txSize : Size2) (submesh : SubMesh) :
  faces_in_bounds submesh = true ->
  exists r, rebuildMesh txSize submesh = Ok r.
Proof.
  unfold faces_in_bounds, rebuildMesh. intro Hb.
  destruct (foldM_expandFace_total
              (map (remapRegion txSize) (regions submesh)) (faces (mesh submesh))
              (mkExpandState (repeat false (length (tCoords (mesh submesh))))
                 (tCoords (mesh submesh))
                 (repeat InvalidExtents (length (regions submesh)))))
    as (st & Hst).
  - apply repeat_length.
  - cbn. now rewrite repeat_length, length_map.
  - cbn. now rewrite length_map.
  - rewrite Hst. cbn [bind]. rewrite mapFaces_visitFaces.
    apply foldM_expandFace_Ok in Hst. cbn [es_seen es_tCoords es_uvPatches] in Hst.
    destruct Hst as (Hvis & Luv).
    apply visitFaces_spec in Hvis; [| apply repeat_length].
    destruct Hvis as (_ & _ & Lt & _).
    destruct (visitFaces_total
                (placeOf (packSize (map patchOfUv (es_uvPatches st)))
                   (map (packOne (map patchOfUv (es_uvPatches st)))
                      (seq 0 (length (map patchOfUv (es_uvPatches st))))))
                (faces (mesh submesh))
                (repeat false (length (es_tCoords st))) (es_tCoords st))
      as ((seen2, tcs2) & ->).
    + apply repeat_length.
    + rewrite Forall_forall. intros face Hface.
      rewrite forallb_forall in Hb. specialize (Hb face Hface).
      apply face_in_bounds_true in Hb. destruct Hb as (Lk & La & Lb & Lc).
      rewrite Lt. repeat split; auto.
      unfold placeOf. intro HN.
      destruct (nth_error _ (imageId face)) eqn:E; [discriminate |].
      apply nth_error_None in E.
      rewrite length_map, length_seq, length_map in E.
      assert (Luv' : length (es_uvPatches st) = length (regions submesh))
        by (etransitivity; [exact Luv | apply repeat_length]).
      unfold UvPatch in *. lia.
    + cbn. eauto.
Qed.

Lemma rebuildMesh_fault (txSize : Size2) (submesh : SubMesh) (f : fault) :
  rebuildMesh txSize submesh = Fault f -> f = OutOfBounds.
Proof.
  unfold rebuildMesh. intro H.
  apply bind_fault in H. destruct H as [H | (st & _ & H)].
  { now apply foldM_expandFace_fault in H. }
  rewrite mapFaces_visitFaces in H.
  apply bind_fault in H. destruct H as [H | (((seen2, tcs2), fs2) & _ & H)];
    [| discriminate].
  apply bind_fault in H. destruct H as [H | (st2 & _ & H)]; [| discriminate].
  now apply visitFaces_fault in H.
Qed.

End Rebuild.

(** ** The pixel copy *)

Lemma out_of_range_spec (x n : Z) :
  (x <? 0) || (x >=? n) = negb ((0 <=? x) && (x <? n)).
Proof.
  rewrite Z.geb_leb.
  destruct (Z.ltb_spec x 0), (Z.leb_spec n x), (Z.leb_spec 0 x), (Z.ltb_spec x n);
    cbn; try reflexivity; lia.
Qed.

Lemma In_range (x start n : Z) : In x (range start n) <-> start <= x < start + n.
Proof.
  unfold range. rewrite in_map_iff. split.
  - intros (k & <- & Hk). apply in_seq in Hk. lia.
  - intro H. exists (Z.to_nat (x - start)). split; [lia |].
    apply in_seq. lia.
Qed.

Lemma existsb_range (x start n : Z) (q : Z -> bool) :
  existsb (fun a => (x =? a) && q a) (range start n)
  = (start <=? x) && (x <? start + n) && q x.
Proof.
  apply eq_iff_eq_true. rewrite existsb_exists, !andb_true_iff, Z.leb_le, Z.ltb_lt.
  split.
  - intros (a & Ha & Hq). apply In_range in Ha. apply andb_true_iff in Hq.
    destruct Hq as (E & Hq). apply Z.eqb_eq in E. subst a. auto.
  - intros ((H1 & H2) & Hq). exists x. split; [apply In_range; lia |].
    now rewrite Z.eqb_refl.
Qed.

Lemma foldM_writes {A : Type} (body : Mat -> A -> result Mat)
    (P : A -> Z -> Z -> bool) (val : Z -> Z -> Vec3b) (xs : list A) :
  (forall m a m', body m a = Ok m' ->
     rows m' = rows m /\ cols m' = cols m
     /\ forall j i, data m' j i = if P a j i then val j i else data m j i) ->
  forall m m', foldM body xs m = Ok m' ->
    rows m' = rows m /\ cols m' = cols m
    /\ forall j i, data m' j i
                   = if existsb (fun a => P a j i) xs then val j i else data m j i.
Proof.
  intro Hbody. induction xs as [|x xs IH]; intros m m' H; cbn [foldM existsb] in *.
  - inversion H; subst. auto.
  - apply bind_Ok in H. destruct H as (m1 & H1 & H).
    destruct (Hbody _ _ _ H1) as (R1 & C1 & D1).
    destruct (IH _ _ H) as (R & C & D).
    repeat split; try congruence.
    intros j i. rewrite D, D1. destruct (P x j i), (existsb _ xs); reflexivity.
Qed.

Lemma mat_set_Ok (m m' : Mat) (j i : Z) (v : Vec3b) :
  mat_set m j i v = Ok m' ->
  in_mat m j i = true /\ rows m' = rows m /\ cols m' = cols m
  /\ forall j' i', data m' j' i' = if (j' =? j) && (i' =? i) then v else data m j' i'.
Proof.
  unfold mat_set. destruct (in_mat m j i); intro H; inversion H; subst. cbn. auto.
Qed.

Lemma in_mat_true (m : Mat) (j i : Z) :
  in_mat m j i = true <-> 0 <= j < rows m /\ 0 <= i < cols m.
Proof.
  unfold in_mat. rewrite !andb_true_iff, !Z.leb_le, !Z.ltb_lt. tauto.
Qed.

(** The guards of the inner loop, for column [i]. *)
Local Abbreviation pixelGuard txSize asize uvRect dstRect i :=
  ((0 <=? i) && (i <? width asize)
   && ((0 <=? srcCoord (pix (point uvRect)) (pix (point dstRect))
                  (width (size uvRect)) i)
       && (srcCoord (pix (point uvRect)) (pix (point dstRect))
             (width (size uvRect)) i <? width txSize))).

(** The guards of the outer loop, for row [j]. *)
Local Abbreviation rowGuard txSize asize uvRect dstRect j :=
  ((0 <=? j) && (j <? height asize)
   && ((0 <=? srcCoord (piy (point uvRect)) (piy (point dstRect))
                  (height (size uvRect)) j)
       && (srcCoord (piy (point uvRect)) (piy (point dstRect))
             (height (size uvRect)) j <? height txSize))).

Lemma copyPixel_data (tx : Mat) (txSize asize : Size2) (uvRect dstRect : Rect)
    (j jsrc : Z) (m m' : Mat) (i : Z) :
  copyPixel tx txSize asize uvRect
    (mkPoint2i (pix (point dstRect) - pix (point uvRect))
               (piy (point dstRect) - piy (point uvRect))) j jsrc m i = Ok m' ->
  rows m' = rows m /\ cols m' = cols m
  /\ forall j' i',
       data m' j' i'
       = if (i' =? i) && ((j' =? j) && pixelGuard txSize asize uvRect dstRect i')
         then data tx jsrc
                (srcCoord (pix (point uvRect)) (pix (point dstRect))
                   (width (size uvRect)) i')
         else data m j' i'.
Proof.
  unfold copyPixel, srcCoord. cbn [pix piy]. rewrite !out_of_range_spec.
  destruct ((0 <=? i) && (i <? width asize)) eqn:G1; cbn [negb].
  2:{ intro H. inversion H; subst. repeat split. intros j' i'.
      destruct (Z.eqb_spec i' i) as [-> |]; [| reflexivity].
      rewrite G1. cbn. now rewrite andb_false_r. }
  destruct (width (size uvRect) =? 0); [discriminate |].
  match goal with
  | |- context [negb (?a && ?b)] => destruct (a && b) eqn:G2
  end; cbn [negb].
  2:{ intro H. inversion H; subst. repeat split. intros j' i'.
      destruct (Z.eqb_spec i' i) as [-> |]; [| reflexivity].
      rewrite G1, G2. cbn. now rewrite andb_false_r. }
  intro H. apply bind_Ok in H. destruct H as (v & Hv & H).
  unfold mat_at in Hv. destruct (in_mat tx jsrc _); inversion Hv; subst v.
  apply mat_set_Ok in H. destruct H as (_ & R & C & D).
  repeat split; auto. intros j' i'. rewrite D.
  destruct (Z.eqb_spec i' i) as [-> |]; [| now rewrite andb_false_r].
  rewrite G1, G2. cbn. now rewrite andb_true_r.
Qed.

Lemma copyRow_data (tx : Mat) (txSize asize : Size2) (uvRect dstRect : Rect)
    (m m' : Mat) (j : Z) :
  copyRow tx txSize asize uvRect dstRect
    (mkPoint2i (pix (point dstRect) - pix (point uvRect))
               (piy (point dstRect) - piy (point uvRect))) m j = Ok m' ->
  rows m' = rows m /\ cols m' = cols m
  /\ forall j' i',
       data m' j' i'
       = if (j' =? j)
            && (rowGuard txSize asize uvRect dstRect j'
                && ((pix (point dstRect) <=? i')
                    && (i' <? pix (point dstRect) + width (size dstRect))
                    && pixelGuard txSize asize uvRect dstRect i'))
         then data tx
                (srcCoord (piy (point uvRect)) (piy (point dstRect))
                   (height (size uvRect)) j')
                (srcCoord (pix (point uvRect)) (pix (point dstRect))
                   (width (size uvRect)) i')
         else data m j' i'.
Proof.
  unfold copyRow. cbn [pix piy]. rewrite !out_of_range_spec.
  fold (srcCoord (piy (point uvRect)) (piy (point dstRect)) (height (size uvRect)) j).
  destruct ((0 <=? j) && (j <? height asize)) eqn:G1; cbn [negb].
  2:{ intro H. inversion H; subst. repeat split. intros j' i'.
      destruct (Z.eqb_spec j' j) as [-> |]; [| reflexivity].
      rewrite G1. reflexivity. }
  destruct (height (size uvRect) =? 0); [discriminate |].
  match goal with
  | |- context [negb (?a && ?b)] => destruct (a && b) eqn:G2
  end; cbn [negb].
  2:{ intro H. inversion H; subst. repeat split. intros j' i'.
      destruct (Z.eqb_spec j' j) as [-> |]; [| reflexivity].
      rewrite G1, G2. reflexivity. }
  destruct (width (size dstRect) <? 0); [discriminate |].
  intro H.
  apply (foldM_writes _
           (fun i j' i' =>
              (i' =? i) && ((j' =? j) && pixelGuard txSize asize uvRect dstRect i'))
           (fun j' i' =>
              data tx
                (srcCoord (piy (point uvRect)) (piy (point dstRect))
                   (height (size uvRect)) j)
                (srcCoord (pix (point uvRect)) (pix (point dstRect))
                   (width (size uvRect)) i'))) in H.
  2:{ intros m0 a m0' H0. apply copyPixel_data in H0. exact H0. }
  destruct H as (R & C & D). repeat split; auto.
  intros j' i'. rewrite D.
  rewrite (existsb_range i' _ _
             (fun _ => (j' =? j) && pixelGuard txSize asize uvRect dstRect i')).
  destruct (Z.eqb_spec j' j) as [-> |].
  - rewrite G1, G2. cbn [andb]. reflexivity.
  - cbn [andb]. now rewrite andb_false_r.
Qed.

(** What one iteration of the patch loop writes: the atlas pixel [(j, i)]
    receives the source pixel designated by [sourceOf], or is left as it
    was. *)
Lemma copyRect_data (tx : Mat) (txSize asize : Size2) (uvRect dstRect : Rect)
    (m m' : Mat) :
  copyRect tx txSize asize m (uvRect, dstRect) = Ok m' ->
  rows m' = rows m /\ cols m' = cols m
  /\ forall j i,
       data m' j i
       = match sourceOf txSize asize uvRect dstRect j i with
         | Some (jsrc, isrc) => data tx jsrc isrc
         | None => data m j i
         end.
Proof.
  unfold copyRect.
  destruct (height (size dstRect) <? 0); [discriminate |].
  intro H.
  apply (foldM_writes _
           (fun j j' i' =>
              (j' =? j)
              && (rowGuard txSize asize uvRect dstRect j'
                  && ((pix (point dstRect) <=? i')
                      && (i' <? pix (point dstRect) + width (size dstRect))
                      && pixelGuard txSize asize uvRect dstRect i')))
           (fun j' i' =>
              data tx
                (srcCoord (piy (point uvRect)) (piy (point dstRect))
                   (height (size uvRect)) j')
                (srcCoord (pix (point uvRect)) (pix (point dstRect))
                   (width (size uvRect)) i'))) in H.
  2:{ intros m0 a m0' H0. apply copyRow_data in H0. exact H0. }
  destruct H as (R & C & D). repeat split; auto.
  intros j i. rewrite D.
  rewrite (existsb_range j _ _
             (fun _ =>
                rowGuard txSize asize uvRect dstRect j
                && ((pix (point dstRect) <=? i)
                    && (i <? pix (point dstRect) + width (size dstRect))
                    && pixelGuard txSize asize uvRect dstRect i))).
  unfold sourceOf.
  match goal with
  | |- (if ?c1 then _ else _) = match (if ?c2 then _ else _) with _ => _ end =>
      assert (E : c1 = c2)
  end.
  { apply eq_iff_eq_true. rewrite !andb_true_iff. tauto. }
  rewrite E. match goal with |- context [if ?c then _ else _] => destruct c end;
    reflexivity.
Qed.

Lemma foldM_outcome {A S : Type} (Inv : S -> Prop) (Bad : fault -> Prop)
    (body : S -> A -> result S) (xs : list A) :
  (forall s a, In a xs -> Inv s ->
     (exists s', body s a = Ok s' /\ Inv s') \/ (exists f, body s a = Fault f /\ Bad f)) ->
  forall s, Inv s ->
    (exists s', foldM body xs s = Ok s' /\ Inv s')
    \/ (exists f, foldM body xs s = Fault f /\ Bad f).
Proof.
  induction xs as [|x xs IH]; intros Hstep s Hs; cbn [foldM].
  - left. eauto.
  - destruct (Hstep s x (or_introl eq_refl) Hs) as [(s1 & -> & Hs1) | (f & -> & Hf)];
      cbn [bind].
    + apply IH; [| exact Hs1]. intros s0 a Ha. apply Hstep. now right.
    + right. eauto.
Qed.

(** The atlas buffer has the size computed by the packing. *)
Local Abbreviation atlasInv asize :=
  (fun m : Mat => rows m = height asize /\ cols m = width asize).

(** The only faults of the copy loops: a remainder by zero or a counter
    that never meets its bound, for a rectangle that is not [copyable]. *)
Local Abbreviation badRect uvRect dstRect :=
  (fun f : fault => f <> OutOfBounds /\ ~ copyable (uvRect, dstRect)).

Lemma copyPixel_outcome (tx : Mat) (asize : Size2) (uvRect dstRect : Rect)
    (diff : Point2i) (j jsrc : Z) (m : Mat) (i : Z) :
  atlasInv asize m ->
  0 <= j < height asize -> 0 <= jsrc < rows tx ->
  (exists m', copyPixel tx (mkSize2 (cols tx) (rows tx)) asize uvRect diff j jsrc m i
              = Ok m' /\ atlasInv asize m')
  \/ (exists f, copyPixel tx (mkSize2 (cols tx) (rows tx)) asize uvRect diff j jsrc m i
                = Fault f /\ badRect uvRect dstRect f).
Proof.
  intros (R & C) Hj Hjs. unfold copyPixel. rewrite !out_of_range_spec. cbn [width height].
  destruct ((0 <=? i) && (i <? width asize)) eqn:G1; cbn [negb]; [| left; eauto].
  destruct (Z.eqb_spec (width (size uvRect)) 0) as [E0 |].
  { right. exists DivByZero. repeat split; [discriminate |].
    unfold copyable. cbn [fst snd]. lia. }
  match goal with
  | |- context [negb (?a && ?b)] => destruct (a && b) eqn:G2
  end; cbn [negb]; [| left; eauto].
  apply andb_true_iff in G1, G2. rewrite Z.leb_le, Z.ltb_lt in G1, G2.
  unfold mat_at, mat_set.
  match goal with
  | |- context [in_mat tx jsrc ?x] =>
      assert (I1 : in_mat tx jsrc x = true) by (apply in_mat_true; lia)
  end.
  rewrite I1. cbn [bind].
  assert (I2 : in_mat m j i = true) by (apply in_mat_true; lia).
  rewrite I2. left. eexists. split; [reflexivity | cbn; auto].
Qed.

Lemma copyRow_outcome (tx : Mat) (asize : Size2) (uvRect dstRect : Rect)
    (diff : Point2i) (m : Mat) (j : Z) :
  atlasInv asize m ->
  (exists m', copyRow tx (mkSize2 (cols tx) (rows tx)) asize uvRect dstRect diff m j
              = Ok m' /\ atlasInv asize m')
  \/ (exists f, copyRow tx (mkSize2 (cols tx) (rows tx)) asize uvRect dstRect diff m j
                = Fault f /\ badRect uvRect dstRect f).
Proof.
  intro Hm. unfold copyRow. rewrite !out_of_range_spec. cbn [width height].
  destruct ((0 <=? j) && (j <? height asize)) eqn:G1; cbn [negb]; [| left; eauto].
  destruct (Z.eqb_spec (height (size uvRect)) 0) as [E0 |].
  { right. exists DivByZero. repeat split; [discriminate |].
    unfold copyable. cbn [fst snd]. lia. }
  match goal with
  | |- context [negb (?a && ?b)] => destruct (a && b) eqn:G2
  end; cbn [negb]; [| left; eauto].
  destruct (Z.ltb_spec (width (size dstRect)) 0) as [E1 |].
  { right. exists SignedOverflow. repeat split; [discriminate |].
    unfold copyable. cbn [fst snd]. lia. }
  apply andb_true_iff in G1, G2. rewrite Z.leb_le, Z.ltb_lt in G1, G2.
  apply (foldM_outcome (atlasInv asize) (badRect uvRect dstRect)); [| exact Hm].
  intros m0 i _ Hm0. apply copyPixel_outcome; auto.
Qed.

Lemma copyRect_outcome (tx : Mat) (asize : Size2) (uvRect dstRect : Rect) (m : Mat) :
  atlasInv asize m ->
  (exists m', copyRect tx (mkSize2 (cols tx) (rows tx)) asize m (uvRect, dstRect)
              = Ok m' /\ atlasInv asize m')
  \/ (exists f, copyRect tx (mkSize2 (cols tx) (rows tx)) asize m (uvRect, dstRect)
                = Fault f /\ badRect uvRect dstRect f).
Proof.
  intro Hm. unfold copyRect.
  destruct (Z.ltb_spec (height (size dstRect)) 0) as [E1 |].
  { right. exists SignedOverflow. repeat split; [discriminate |].
    unfold copyable. cbn [fst snd]. lia. }
  apply (foldM_outcome (atlasInv asize) (badRect uvRect dstRect)); [| exact Hm].
  intros m0 j _ Hm0. apply copyRow_outcome; auto.
Qed.

Section PixelCopy.

Context {TX : Texturing}.

(** The pixel copy ends normally or in a fault other than an access out
    of bounds, and the latter only for rectangles that are not
    [copyable]. *)
Lemma copyPatches_outcome (tx : Mat) (asize : Size2) (uvRects : list Rect)
    (patches : list Patch) (m : Mat) :
  rows m = height asize -> cols m = width asize ->
  (exists m', copyPatches tx (mkSize2 (cols tx) (rows tx)) asize uvRects patches m
              = Ok m' /\ rows m' = height asize /\ cols m' = width asize)
  \/ (exists f, copyPatches tx (mkSize2 (cols tx) (rows tx)) asize uvRects patches m
                = Fault f /\ f <> OutOfBounds
                /\ ~ Forall copyable (combine uvRects (map dst patches))).
Proof.
  intros R C. unfold copyPatches.
  apply (foldM_outcome (atlasInv asize)
           (fun f => f <> OutOfBounds
                     /\ ~ Forall copyable (combine uvRects (map dst patches))));
    [| auto].
  intros m0 (uvRect, dstRect) HIn Hm0.
  destruct (copyRect_outcome tx asize uvRect dstRect m0 Hm0)
    as [Hok | (f & Hf & Hne & Hbad)]; [left; exact Hok | right].
  exists f. repeat split; auto. intro Hall. apply Hbad.
  rewrite Forall_forall in Hall. apply (Hall _ HIn).
Qed.

Lemma sourceOf_Some (txSize asize : Size2) (uvRect dstRect : Rect) (j i jsrc isrc : Z) :
  sourceOf txSize asize uvRect dstRect j i = Some (jsrc, isrc) ->
  (0 <= j < height asize /\ 0 <= i < width asize)
  /\ (0 <= jsrc < height txSize /\ 0 <= isrc < width txSize)
  /\ (piy (point dstRect) <= j < piy (point dstRect) + height (size dstRect)
      /\ pix (point dstRect) <= i < pix (point dstRect) + width (size dstRect))
  /\ jsrc = srcCoord (piy (point uvRect)) (piy (point dstRect)) (height (size uvRect)) j
  /\ isrc = srcCoord (pix (point uvRect)) (pix (point dstRect)) (width (size uvRect)) i.
Proof.
  unfold sourceOf.
  match goal with |- context [if ?c then _ else _] => destruct c eqn:E end;
    [| discriminate].
  intro H. inversion H; subst. clear H.
  rewrite !andb_true_iff, !Z.leb_le, !Z.ltb_lt in E. intuition.
Qed.

Lemma copyPatches_data (tx : Mat) (txSize asize : Size2) (uvRects : list Rect)
    (patches : list Patch) (m m' : Mat) :
  copyPatches tx txSize asize uvRects patches m = Ok m' ->
  forall j i,
    (data m' j i = data m j i
     \/ exists uvRect dstRect jsrc isrc,
          In (uvRect, dstRect) (combine uvRects (map dst patches))
          /\ sourceOf txSize asize uvRect dstRect j i = Some (jsrc, isrc)
          /\ data m' j i = data tx jsrc isrc)
    /\ ((forall uvRect dstRect,
           In (uvRect, dstRect) (combine uvRects (map dst patches)) ->
           sourceOf txSize asize uvRect dstRect j i = None) ->
        data m' j i = data m j i).
Proof.
  unfold copyPatches. intros H j i. split.
  - revert H.
    apply (foldM_invariant
             (fun s => data s j i = data m j i
                       \/ exists uvRect dstRect jsrc isrc,
                            In (uvRect, dstRect) (combine uvRects (map dst patches))
                            /\ sourceOf txSize asize uvRect dstRect j i
                               = Some (jsrc, isrc)
                            /\ data s j i = data tx jsrc isrc)); [| now left].
    intros s (uvRect, dstRect) s' HIn Hs Hstep.
    apply copyRect_data in Hstep. destruct Hstep as (_ & _ & D). rewrite D.
    destruct (sourceOf txSize asize uvRect dstRect j i) as [(jsrc, isrc) |] eqn:E.
    + right. exists uvRect, dstRect, jsrc, isrc. auto.
    + exact Hs.
  - intro Hnone. revert H.
    apply (foldM_invariant (fun s => data s j i = data m j i)); [| reflexivity].
    intros s (uvRect, dstRect) s' HIn Hs Hstep.
    apply copyRect_data in Hstep. destruct Hstep as (_ & _ & D). rewrite D.
    now rewrite (Hnone _ _ HIn).
Qed.

(** C6.  In the pixel-copy step of [rebuild], no access leaves its
    buffer: the copy never ends in the fault [OutOfBounds], whatever the
    rectangles; it ends normally for rectangles the loops can walk; every
    atlas pixel is either the background value or a pixel read inside the
    source image and written inside the atlas; and an atlas pixel for which
    every patch is skipped (destination outside the atlas, or computed
    source outside the source image) keeps the background value. *)
Theorem pixel_copy_in_bounds (tx : Mat) (asize : Size2) (uvRects : list Rect)
    (patches : list Patch) :
  let txSize := mkSize2 (cols tx) (rows tx) in
  let copied := copyPatches tx txSize asize uvRects patches
                  (mat_new (height asize) (width asize) Vec3b_zero) in
  copied <> Fault OutOfBounds
  /\ (Forall copyable (combine uvRects (map dst patches)) ->
      exists otx, copied = Ok otx)
  /\ (forall otx, copied = Ok otx ->
        rows otx = height asize /\ cols otx = width asize
        /\ forall j i,
             (data otx j i = Vec3b_zero
              \/ exists uvRect dstRect jsrc isrc,
                   In (uvRect, dstRect) (combine uvRects (map dst patches))
                   /\ sourceOf txSize asize uvRect dstRect j i = Some (jsrc, isrc)
                   /\ in_mat otx j i = true /\ in_mat tx jsrc isrc = true
                   /\ data otx j i = data tx jsrc isrc)
             /\ ((forall uvRect dstRect,
                    In (uvRect, dstRect) (combine uvRects (map dst patches)) ->
                    sourceOf txSize asize uvRect dstRect j i = None) ->
                 data otx j i = Vec3b_zero)).
Proof.
  intros txSize copied.
  destruct (copyPatches_outcome tx asize uvRects patches
              (mat_new (height asize) (width asize) Vec3b_zero) eq_refl eq_refl)
    as [(m' & Hok & R & C) | (f & Hf & Hne & Hbad)];
    fold txSize in Hok || fold txSize in Hf; fold copied in Hok || fold copied in Hf.
  - repeat apply conj.
    + rewrite Hok. discriminate.
    + intros _. exists m'. exact Hok.
    + intros otx Hotx. rewrite Hok in Hotx. inversion Hotx; subst otx. clear Hotx.
      repeat split; auto.
      * destruct (proj1 (copyPatches_data _ _ _ _ _ _ _ Hok j i))
          as [E | (uvRect & dstRect & jsrc & isrc & HIn & Hsrc & E)];
          [left; exact E | right].
        exists uvRect, dstRect, jsrc, isrc. repeat split; auto.
        -- apply sourceOf_Some in Hsrc. apply in_mat_true. rewrite R, C. tauto.
        -- apply sourceOf_Some in Hsrc. apply in_mat_true. cbn in Hsrc. tauto.
      * intro Hnone. apply (proj2 (copyPatches_data _ _ _ _ _ _ _ Hok j i) Hnone).
  - repeat apply conj.
    + rewrite Hf. intro E. inversion E. congruence.
    + intro Hall. contradiction.
    + intros otx Hotx. rewrite Hf in Hotx. discriminate.
Qed.

End PixelCopy.

(** A source rectangle reaching past the right edge of the 4 x 2 image:
    the atlas pixel whose computed source column is 4 is skipped and keeps
    the background value; its neighbour is copied from column 3. *)
Example pixel_copy_skips_outside :
  match Reference.decode (sbytes Reference.image) with
  | Some tx =>
      match copyRect tx (mkSize2 4 2) (mkSize2 2 2) (mat_new 2 2 Vec3b_zero)
              (mkRect (mkPoint2i 3 0) (mkSize2 2 2),
               mkRect (mkPoint2i 0 0) (mkSize2 2 2)) with
      | Ok otx => data otx 0 0 = Vec3b_zero /\ data otx 0 1 = (13, 13, 13)
      | Fault _ => False
      end
  | None => False
  end.
Proof. vm_compute. split; reflexivity. Qed.

(** ** rebuild *)

Section RebuildClaims.

Context {TX : Texturing}.

(** C9.  A texture coordinate referenced by several faces of one region
    is remapped once: its final value is the original coordinate multiplied,
    axis by axis, by the pixel size of the region, placed by the transform
    of the region's patch a single time, and divided by the width (x) and
    the height (y) of the atlas.  The division is stated for a dimension
    other than zero; for a zero dimension the code yields a value that is
    not a number of the model. *)
Theorem tcoord_remapped_once (txSize : Size2) (submesh : SubMesh)
    (tcs : list Point2d) (fs : list Face) (patches : list Patch) (asize : Size2)
    (index : nat) (face : Face) :
  rebuildMesh txSize submesh = Ok (tcs, fs, patches, asize) ->
  In face (faces (mesh submesh)) ->
  uses face index = true ->
  (forall f, In f (faces (mesh submesh)) -> uses f index = true ->
             imageId f = imageId face) ->
  exists tc0 region patch final,
    nth_error (tCoords (mesh submesh)) index = Some tc0
    /\ nth_error (map (remapRegion txSize) (regions submesh)) (imageId face)
       = Some region
    /\ nth_error patches (imageId face) = Some patch
    /\ nth_error tcs index = Some final
    /\ let placed :=
         pmap patch
           (mkPoint2d (p2x tc0 * (p2x (ur region) - p2x (ll region)))
                      (p2y tc0 * (p2y (ur region) - p2y (ll region)))) in
       (width asize <> 0 -> p2x final = (p2x placed / inject_Z (width asize))%Q)
       /\ (height asize <> 0 -> p2y final = (p2y placed / inject_Z (height asize))%Q).
Proof.
  intros H HIn Hu Hall.
  destruct (rebuildMesh_spec _ _ _ _ _ _ H) as (_ & _ & _ & _ & Hspec).
  specialize (Hspec index).
  rewrite (owner_shared _ _ _ HIn Hu Hall) in Hspec.
  destruct Hspec as (tc0 & region & patch & H1 & H2 & H3 & H4).
  exists tc0, region, patch,
    (normalize asize (pmap patch (remapTc (size_of region) tc0))).
  split; [exact H1 | split; [exact H2 | split; [exact H3 | split; [exact H4 |]]]].
  cbv zeta. split; intros _; reflexivity.
Qed.

(** C5, amended.  A texture coordinate shared by faces of different image
    ids is not flagged: whenever the indices of the faces are in range the
    two passes complete, and a referenced coordinate is scaled and placed
    by the region of the first face, in mesh order, that references it. *)
Theorem shared_index_first_face_wins (txSize : Size2) (submesh : SubMesh) :
  faces_in_bounds submesh = true ->
  exists tcs fs patches asize,
    rebuildMesh txSize submesh = Ok (tcs, fs, patches, asize)
    /\ forall index k,
         owner (faces (mesh submesh)) index = Some k ->
         exists tc0 region patch,
           nth_error (tCoords (mesh submesh)) index = Some tc0
           /\ nth_error (map (remapRegion txSize) (regions submesh)) k = Some region
           /\ nth_error patches k = Some patch
           /\ nth_error tcs index
              = Some (normalize asize (pmap patch (remapTc (size_of region) tc0))).
Proof.
  intro Hb.
  destruct (rebuildMesh_total txSize submesh Hb) as ([[[tcs fs] patches] asize] & H).
  exists tcs, fs, patches, asize. split; [exact H |].
  destruct (rebuildMesh_spec _ _ _ _ _ _ H) as (_ & _ & _ & _ & Hspec).
  intros index k Ho. specialize (Hspec index). now rewrite Ho in Hspec.
Qed.

(** An index out of range is not caught: the passes run into it. *)
Lemma rebuildMesh_unchecked (txSize : Size2) (submesh : SubMesh) :
  faces_in_bounds submesh = false ->
  rebuildMesh txSize submesh = Fault OutOfBounds.
Proof.
  intro Hb. destruct (rebuildMesh txSize submesh) as [[[[tcs fs] patches] asize] | f] eqn:E.
  - apply rebuildMesh_spec in E. destruct E as (_ & _ & _ & Hin & _). congruence.
  - apply rebuildMesh_fault in E. now subst f.
Qed.

(** C10.  Under the precondition that every face has its image id below
    the number of regions and its three texture-coordinate indices below
    the number of texture coordinates, every indexed access of [rebuild] is
    in bounds: the two passes over the faces complete, and [rebuild] as a
    whole never ends in the fault [OutOfBounds]. *)
Theorem rebuild_accesses_in_bounds (txSize : Size2) (submesh : SubMesh) :
  faces_in_bounds submesh = true ->
  (exists r, rebuildMesh txSize submesh = Ok r)
  /\ (forall tex, rebuild submesh tex <> Fault OutOfBounds).
Proof.
  intro Hb. split; [apply rebuildMesh_total, Hb |].
  intro tex. unfold rebuild.
  destruct (stream2mat tex) as [tx | f] eqn:Etx; cbn [bind].
  2:{ unfold stream2mat in Etx. destruct (imdecode (sbytes tex)); inversion Etx.
      discriminate. }
  destruct (rebuildMesh_total (mkSize2 (cols tx) (rows tx)) submesh Hb)
    as ([[[tcs fs] patches] asize] & ->).
  cbn [bind].
  destruct (copyPatches_outcome tx asize
              (map rectOfUv (map (remapRegion (mkSize2 (cols tx) (rows tx)))
                               (regions submesh)))
              patches (mat_new (height asize) (width asize) Vec3b_zero)
              eq_refl eq_refl)
    as [(m' & -> & _) | (f & -> & Hne & _)]; cbn [bind].
  - discriminate.
  - intro E. inversion E. congruence.
Qed.

(** C4, amended.  After [rebuild] returns every face has image id 0 (and
    is otherwise unchanged); the region list of the submesh is left as it
    was. *)
Theorem rebuild_resets_image_ids (submesh sm : SubMesh) (tex : IStream) (otx : Mat) :
  rebuild submesh tex = Ok (sm, otx) ->
  Forall (fun face => imageId face = 0%nat) (faces (mesh sm))
  /\ faces (mesh sm) = map resetImageId (faces (mesh submesh))
  /\ regions sm = regions submesh.
Proof.
  intro H. apply rebuild_frame in H.
  destruct H as (_ & Hr & tx & tcs & fs & patches & asize & _ & Hmesh & _ & Hf & _).
  apply rebuildMesh_spec in Hmesh. destruct Hmesh as (-> & _).
  repeat split; auto.
  rewrite Hf. apply Forall_forall. intros face HIn.
  apply in_map_iff in HIn. destruct HIn as (f0 & <- & _). reflexivity.
Qed.

End RebuildClaims.

Lemma tcoord_remapped_once_witness :
  exists tcs fs patches asize tc0 region patch final,
    @rebuildMesh Reference.texturing (mkSize2 4 2) Reference.twoRegions
    = Ok (tcs, fs, patches, asize)
    /\ width asize <> 0 /\ height asize <> 0
    /\ nth_error (tCoords (mesh Reference.twoRegions)) 0 = Some tc0
    /\ nth_error (map (remapRegion (mkSize2 4 2)) (regions Reference.twoRegions)) 0
       = Some region
    /\ nth_error patches 0 = Some patch
    /\ nth_error tcs 0 = Some final
    /\ p2x final
       = (p2x (@pmap Reference.texturing patch
                 (mkPoint2d (p2x tc0 * (p2x (ur region) - p2x (ll region)))
                            (p2y tc0 * (p2y (ur region) - p2y (ll region)))))
          / inject_Z (width asize))%Q
    /\ p2y final
       = (p2y (@pmap Reference.texturing patch
                 (mkPoint2d (p2x tc0 * (p2x (ur region) - p2x (ll region)))
                            (p2y tc0 * (p2y (ur region) - p2y (ll region)))))
          / inject_Z (height asize))%Q.
Proof.
  destruct (@rebuildMesh Reference.texturing (mkSize2 4 2) Reference.twoRegions)
    as [[[[tcs fs] patches] asize] | f] eqn:E.
  - assert (Hsize : width asize <> 0 /\ height asize <> 0).
    { pose proof E as E'. vm_compute in E'. inversion E'. cbn. split; discriminate. }
    destruct Hsize as (Hw & Hh).
    destruct (@tcoord_remapped_once Reference.texturing (mkSize2 4 2)
                Reference.twoRegions tcs fs patches asize 0%nat
                (Reference.triangle 0 1 2 0) E)
      as (tc0 & region & patch & final & H1 & H2 & H3 & H4 & H5 & H6).
    + left. reflexivity.
    + reflexivity.
    + intros f [<- | [<- | [<- | []]]] Hu; try reflexivity. discriminate Hu.
    + exists tcs, fs, patches, asize, tc0, region, patch, final.
      split; [reflexivity |]. split; [exact Hw |]. split; [exact Hh |].
      split; [exact H1 |]. split; [exact H2 |]. split; [exact H3 |].
      split; [exact H4 |]. split; [exact (H5 Hw) | exact (H6 Hh)].
  - exfalso. vm_compute in E. discriminate E.
Defined.

Lemma shared_index_first_face_wins_witness :
  faces_in_bounds Reference.sharedIndex = true
  /\ owner (faces (mesh Reference.sharedIndex)) 0 = Some 0%nat
  /\ exists tcs fs patches asize,
       @rebuildMesh Reference.texturing (mkSize2 4 2) Reference.sharedIndex
       = Ok (tcs, fs, patches, asize)
       /\ exists tc0 region patch,
            nth_error (tCoords (mesh Reference.sharedIndex)) 0 = Some tc0
            /\ nth_error (map (remapRegion (mkSize2 4 2))
                            (regions Reference.sharedIndex)) 0 = Some region
            /\ nth_error patches 0 = Some patch
            /\ nth_error tcs 0
               = Some (normalize asize
                         (@pmap Reference.texturing patch
                            (remapTc (size_of region) tc0))).
Proof.
  split; [reflexivity | split; [reflexivity |]].
  destruct (@shared_index_first_face_wins Reference.texturing (mkSize2 4 2)
              Reference.sharedIndex eq_refl)
    as (tcs & fs & patches & asize & H & Hown).
  exists tcs, fs, patches, asize. split; [exact H |].
  apply (Hown 0%nat 0%nat). reflexivity.
Defined.

(** C5, as stated, fails: texture coordinate 0 of this submesh is shared by
    a face of region 0 and a face of region 1, and [rebuild] returns
    normally. *)
Lemma shared_index_not_flagged :
  conflict Reference.sharedIndex 0
  /\ is_ok (@rebuild Reference.texturing Reference.sharedIndex Reference.image) = true.
Proof.
  split.
  - exists (Reference.triangle 0 1 2 0), (Reference.triangle 0 3 4 1).
    repeat split; cbn; auto; discriminate.
  - vm_compute. reflexivity.
Qed.

Lemma rebuild_accesses_in_bounds_witness :
  faces_in_bounds Reference.twoRegions = true
  /\ (exists r, @rebuildMesh Reference.texturing (mkSize2 4 2) Reference.twoRegions = Ok r)
  /\ @rebuild Reference.texturing Reference.twoRegions Reference.image
     <> Fault OutOfBounds.
Proof.
  destruct (@rebuild_accesses_in_bounds Reference.texturing (mkSize2 4 2)
              Reference.twoRegions eq_refl) as (H1 & H2).
  split; [reflexivity | split; [exact H1 | apply H2]].
Defined.

Lemma rebuild_resets_image_ids_witness :
  exists sm otx,
    @rebuild Reference.texturing Reference.twoRegions Reference.image = Ok (sm, otx)
    /\ Forall (fun face => imageId face = 0%nat) (faces (mesh sm))
    /\ regions sm = regions Reference.twoRegions.
Proof.
  destruct (@rebuild Reference.texturing Reference.twoRegions Reference.image)
    as [[sm otx] | f] eqn:E.
  - exists sm, otx. split; [reflexivity |].
    destruct (@rebuild_resets_image_ids Reference.texturing Reference.twoRegions
                sm Reference.image otx E) as (H1 & _ & H3).
    split; assumption.
  - exfalso. vm_compute in E. discriminate E.
Defined.

(** C4, as stated, fails: the submesh keeps its region list. *)
Lemma rebuild_keeps_regions :
  exists sm otx,
    @rebuild Reference.texturing Reference.oneRegion Reference.image = Ok (sm, otx)
    /\ regions sm <> [].
Proof.
  destruct (@rebuild Reference.texturing Reference.oneRegion Reference.image)
    as [[sm otx] | f] eqn:E.
  - exists sm, otx. split; [reflexivity |].
    apply rebuild_frame in E. destruct E as (_ & -> & _). discriminate.
  - exfalso. vm_compute in E. discriminate E.
Qed.

(** ** C1: the source pixel of the copy *)

(** When the origin of the source rectangle is a multiple of its size, the
    copy reads the pixel the specification names. *)
Lemma srcCoord_aligned (uv d extent x : Z) :
  0 < extent -> 0 <= uv -> d <= x -> uv mod extent = 0 ->
  srcCoord uv d extent x = uv + (x - d) mod extent.
Proof.
  intros He Huv Hx Hal. unfold srcCoord.
  replace (x - (d - uv)) with ((x - d) + uv) by ring.
  rewrite Z.rem_mod_nonneg by lia.
  rewrite Z.add_mod by lia. rewrite Hal, Z.add_0_r, Z.mod_mod by lia. reflexivity.
Qed.

(** C1.  The copy does not read the pixel at the source origin plus
    [(dx mod srcW, dy mod srcH)]: the remainder is taken of the source
    coordinate, not of the offset.  For the region [middle] of a 4 x 2 image
    (source rectangle at column 1, two columns wide) placed at the atlas
    origin, the atlas pixel (0,0) is copied from source column 2 instead of
    column 1, and the two columns come out exchanged. *)
Theorem pixel_copy_source_shifted :
  let uvRect := mkRect (mkPoint2i 1 0) (mkSize2 2 2) in
  let dstRect := mkRect (mkPoint2i 0 0) (mkSize2 2 2) in
  @rectOfUv Reference.texturing (remapRegion (mkSize2 4 2) Reference.middle) = uvRect
  /\ sourceOf (mkSize2 4 2) (mkSize2 2 2) uvRect dstRect 0 0 = Some (0, 2)
  /\ tiledSource uvRect dstRect 0 0 = (0, 1)
  /\ match @rebuild Reference.texturing Reference.oneRegion Reference.image with
     | Ok (_, otx) =>
         rows otx = 2 /\ cols otx = 2
         /\ data otx 0 0 = (12, 12, 12) /\ data otx 0 1 = (11, 11, 11)
         /\ data otx 1 0 = (22, 22, 22) /\ data otx 1 1 = (21, 21, 21)
     | Fault _ => False
     end.
Proof. vm_compute. repeat split. Qed.

(** * Further properties of the code *)

(** ** measureMesh: edge cases and independence of the iteration order *)

Lemma extremum_same_elements (leb : Q -> Q -> bool) (xs ys : list Q) (init : Q) :
  (forall a b, leb a b = true \/ leb b a = true) ->
  (forall a b c, leb a b = true -> leb b c = true -> leb a c = true) ->
  (forall x, In x xs <-> In x ys) ->
  leb (extremum leb init xs) (extremum leb init ys) = true
  /\ leb (extremum leb init ys) (extremum leb init xs) = true.
Proof.
  intros Htot Htrans Hsame. apply (extremum_cover leb Htot Htrans).
  - intros x Hx. exists x. split; [now apply Hsame | now apply leb_refl].
  - intros c Hc. right. exists c. split; [now apply Hsame | now apply leb_refl].
Qed.

Lemma mergePartials_permutation (parts order : list (list Point2d)) :
  Permutation order parts ->
  extents_eq (mergePartials (map accumulate order)) (mergePartials (map accumulate parts)).
Proof.
  intro Hperm.
  assert (Hk : forall k, (k = p2x \/ k = p2y) ->
            k (ll (mergePartials (map accumulate order)))
            == k (ll (mergePartials (map accumulate parts)))
            /\ k (ur (mergePartials (map accumulate order)))
               == k (ur (mergePartials (map accumulate parts)))).
  { intros k Hk. unfold mergePartials.
    destruct (fold_merge_components (map accumulate order) InvalidExtents k Hk)
      as (E1 & E2).
    destruct (fold_merge_components (map accumulate parts) InvalidExtents k Hk)
      as (E3 & E4).
    rewrite E1, E2, E3, E4.
    assert (Hsame : forall c,
              In c (flat_map (fun e => [k (ll e); k (ur e)]) (map accumulate order))
              <-> In c (flat_map (fun e => [k (ll e); k (ur e)]) (map accumulate parts))).
    { intro c. rewrite !in_corners.
      split; intros (b & Hb & Hc); exists b; split; auto.
      - apply (Permutation_in _ Hperm), Hb.
      - apply (Permutation_in _ (Permutation_sym Hperm)), Hb. }
    split.
    - destruct (extremum_same_elements Qle_bool _ _ (k (ll InvalidExtents))
                  Qle_bool_total Qle_bool_trans Hsame).
      now apply Qle_bool_antisym.
    - destruct (extremum_same_elements Qge_bool _ _ (k (ur InvalidExtents))
                  Qge_bool_total Qge_bool_trans Hsame).
      now apply Qge_bool_antisym. }
  destruct (Hk p2x (or_introl eq_refl)) as (X1 & X2).
  destruct (Hk p2y (or_intror eq_refl)) as (Y1 & Y2).
  repeat split; assumption.
Qed.

Lemma topLevel_permutation (tree tree' : Tree) (init : Z) :
  Permutation tree tree' ->
  fold_left minStep tree init = fold_left minStep tree' init.
Proof.
  intro Hperm. revert init.
  induction Hperm as [| x t t' Hp IH | x y t | t1 t2 t3 H1 IH1 H2 IH2];
    intro init; cbn.
  - reflexivity.
  - apply IH.
  - f_equal. destruct (hasGeometry (snd x)), (hasGeometry (snd y)); lia.
  - now rewrite IH1.
Qed.

Lemma filter_permutation {A : Type} (p : A -> bool) (l l' : list A) :
  Permutation l l' -> Permutation (filter p l) (filter p l').
Proof.
  induction 1 as [| x t t' Hp IH | x y t | t1 t2 t3 H1 IH1 H2 IH2]; cbn.
  - constructor.
  - destruct (p x); [now constructor | exact IH].
  - destruct (p x), (p y); try apply Permutation_refl. apply perm_swap.
  - eapply Permutation_trans; eassumption.
Qed.

Section MeasureMeshExtras.

Context {G : Geo} {AR : Archive}.

(** X1.  A tree in which no node has geometry selects nothing: the top
    level stays at the largest [int], no node is measured, and the result
    is the invalid extents, whose center is the origin. *)
Theorem measureMesh_without_geometry (tree : Tree) :
  Forall (fun item => hasGeometry (snd item) = false) tree ->
  topLevel tree = INT_MAX
  /\ collectNodes tree = []
  /\ measureMesh tree = InvalidExtents
  /\ point_eq (center (measureMesh tree)) (mkPoint2d 0 0).
Proof.
  intro Hno.
  assert (Htop : topLevel tree = INT_MAX).
  { unfold topLevel. generalize INT_MAX.
    induction Hno as [| item t Hitem Hrest IH]; intro init; cbn; [reflexivity |].
    rewrite Hitem. apply IH. }
  assert (Hc : collectNodes tree = []).
  { unfold collectNodes. generalize (topLevel tree). intro top. clear Htop.
    induction Hno as [| item t Hitem Hrest IH]; cbn; [reflexivity |].
    rewrite Hitem, andb_false_r. exact IH. }
  repeat apply conj.
  - exact Htop.
  - exact Hc.
  - unfold measureMesh. now rewrite Hc.
  - unfold measureMesh. rewrite Hc. reflexivity.
  - unfold measureMesh. rewrite Hc. reflexivity.
Qed.

(** X2.  The measured extents contain the converted, projected position of
    every vertex of every selected node, whatever the other nodes
    contribute. *)
Theorem measureMesh_covers_vertices (tree : Tree) (node : Node) (v : Point3d) :
  In node (collectNodes tree) ->
  In v (loadVertices node) ->
  covers (measureMesh tree) (project (conv v)).
Proof.
  intros Hnode Hv. unfold measureMesh. rewrite measureNodes_mergePartials.
  set (parts := map (fun n => map (fun v => project (conv v)) (loadVertices n))
                  (collectNodes tree)).
  assert (Hpart : In (map (fun v => project (conv v)) (loadVertices node)) parts).
  { unfold parts. apply in_map_iff. exists node. auto. }
  assert (Hp : In (project (conv v)) (map (fun v => project (conv v)) (loadVertices node))).
  { apply in_map_iff. exists v. auto. }
  assert (Hk : forall k, (k = p2x \/ k = p2y) ->
            (k (ll (mergePartials (map accumulate parts))) <= k (project (conv v))
             /\ k (project (conv v)) <= k (ur (mergePartials (map accumulate parts))))%Q).
  { intros k Hk. unfold mergePartials.
    destruct (fold_merge_components (map accumulate parts) InvalidExtents k Hk)
      as (E1 & E2).
    rewrite E1, E2.
    destruct (accumulate_bounds _ k _ Hk Hp) as (B1 & B2).
    split; apply Qle_bool_iff.
    - eapply Qle_bool_trans; [| exact B1].
      apply extremum_le_elem; [apply Qle_bool_total | apply Qle_bool_trans |].
      apply in_corners. eexists. split; [exact Hpart | now left].
    - eapply Qle_bool_trans; [exact B2 |].
      change (Qge_bool
                (extremum Qge_bool (k (ur InvalidExtents))
                   (flat_map (fun e => [k (ll e); k (ur e)]) (map accumulate parts)))
                (k (ur (accumulate (map (fun v => project (conv v)) (loadVertices node)))))
              = true).
      apply extremum_le_elem; [apply Qge_bool_total | apply Qge_bool_trans |].
      apply in_corners. eexists. split; [exact Hpart | now right]. }
  destruct (Hk p2x (or_introl eq_refl)) as (X1 & X2).
  destruct (Hk p2y (or_intror eq_refl)) as (Y1 & Y2).
  repeat split; assumption.
Qed.

(** X3.  A selected node without any vertex spoils the measurement: its
    node-local extents stay invalid, both invalid corners are merged, and
    (the vertices of the other nodes being finite) the result is the whole
    range from [(lowest, lowest)] to [(max, max)]. *)
Theorem measureMesh_hollow_node (tree : Tree) (hollow : Node) :
  In hollow (collectNodes tree) ->
  loadVertices hollow = [] ->
  (forall node v, In node (collectNodes tree) -> In v (loadVertices node) ->
                  finite (p3x (conv v)) /\ finite (p3y (conv v))) ->
  extents_eq (measureMesh tree)
    (mkExtents2 (mkPoint2d DBL_LOWEST DBL_LOWEST) (mkPoint2d DBL_MAX DBL_MAX)).
Proof.
  intros Hh Hempty Hfin. unfold measureMesh. rewrite measureNodes_mergePartials.
  set (parts := map (fun n => map (fun v => project (conv v)) (loadVertices n))
                  (collectNodes tree)).
  assert (Hpart : In [] parts).
  { unfold parts. apply in_map_iff. exists hollow. rewrite Hempty. auto. }
  assert (Hfin' : forall k part p, (k = p2x \/ k = p2y) -> In part parts -> In p part ->
                                   finite (k p)).
  { intros k part p Hk Hin Hp. unfold parts in Hin. apply in_map_iff in Hin.
    destruct Hin as (n & <- & Hn). apply in_map_iff in Hp. destruct Hp as (v & <- & Hv).
    destruct (Hfin n v Hn Hv) as (Fx & Fy). destruct Hk as [-> | ->]; assumption. }
  assert (HD : (DBL_LOWEST <= DBL_MAX)%Q) by (unfold Qle; cbn; lia).
  assert (Hk : forall k, (k = p2x \/ k = p2y) ->
            k (ll (mergePartials (map accumulate parts))) == DBL_LOWEST
            /\ k (ur (mergePartials (map accumulate parts))) == DBL_MAX).
  { intros k Hk. unfold mergePartials.
    destruct (fold_merge_components (map accumulate parts) InvalidExtents k Hk)
      as (E1 & E2).
    destruct (invalid_corners k Hk) as (I1 & I2).
    rewrite E1, E2, I1, I2.
    assert (Hcorner : forall c,
              In c (flat_map (fun e => [k (ll e); k (ur e)]) (map accumulate parts)) ->
              (DBL_LOWEST <= c /\ c <= DBL_MAX)%Q).
    { intros c Hc. apply in_corners in Hc. destruct Hc as (b & Hb & [-> | ->]).
      - destruct (accumulate_corner_cases b k Hk) as ([E | (p & Hp & E)] & _);
          rewrite E; [split; [exact HD | apply Qle_refl] | apply (Hfin' k b p Hk Hb Hp)].
      - destruct (accumulate_corner_cases b k Hk) as (_ & [E | (p & Hp & E)]);
          rewrite E; [split; [apply Qle_refl | exact HD] | apply (Hfin' k b p Hk Hb Hp)]. }
    split.
    - apply Qle_bool_antisym.
      + replace DBL_LOWEST with (k (ur (accumulate []))) at 2
          by (destruct Hk as [-> | ->]; reflexivity).
        apply extremum_le_elem; [apply Qle_bool_total | apply Qle_bool_trans |].
        apply in_corners. exists []. auto.
      + apply extremum_glb; [now apply Qle_bool_iff |].
        intros c Hc. apply Qle_bool_iff. apply (Hcorner c Hc).
    - apply Qge_bool_antisym.
      + replace DBL_MAX with (k (ll (accumulate []))) at 2
          by (destruct Hk as [-> | ->]; reflexivity).
        apply extremum_le_elem; [apply Qge_bool_total | apply Qge_bool_trans |].
        apply in_corners. exists []. auto.
      + apply extremum_glb; [unfold Qge_bool; now apply Qle_bool_iff |].
        intros c Hc. unfold Qge_bool. apply Qle_bool_iff. apply (Hcorner c Hc). }
  destruct (Hk p2x (or_introl eq_refl)) as (X1 & X2).
  destruct (Hk p2y (or_intror eq_refl)) as (Y1 & Y2).
  repeat split; assumption.
Qed.

(** X4.  The result of [measureMesh] does not depend on the order in which
    the node map is iterated: a reordered tree gives the same top level,
    the same selected nodes and numerically the same extents. *)
Theorem measureMesh_iteration_order (tree tree' : Tree) :
  Permutation tree tree' ->
  topLevel tree' = topLevel tree
  /\ Permutation (collectNodes tree') (collectNodes tree)
  /\ extents_eq (measureMesh tree') (measureMesh tree).
Proof.
  intro Hperm.
  assert (Htop : topLevel tree' = topLevel tree)
    by (unfold topLevel; symmetry; apply topLevel_permutation, Hperm).
  assert (Hcol : Permutation (collectNodes tree') (collectNodes tree)).
  { unfold collectNodes. rewrite Htop. apply Permutation_map, filter_permutation.
    apply Permutation_sym, Hperm. }
  repeat split; auto;
    unfold measureMesh; rewrite !measureNodes_mergePartials;
    apply mergePartials_permutation, Permutation_map, Hcol.
Qed.

(** X5.  The loader used for measuring reacts to vertices only: after any
    sequence of loader calls its extents are those accumulated from the
    vertices among the calls, in call order; textures, faces, normals,
    texture regions and mesh changes leave them untouched. *)
Theorem measureCall_vertices_only (calls : list LoaderCall) (e : Extents2) :
  fold_left measureCall calls e = fold_left addVertex (verticesOf calls) e.
Proof.
  revert e. induction calls as [|call calls IH]; intro e; cbn; [reflexivity |].
  destruct call; cbn; apply IH.
Qed.

End MeasureMeshExtras.

Lemma measureMesh_without_geometry_witness :
  Forall (fun item => hasGeometry (snd item) = false) Reference.bare
  /\ @measureMesh Reference.geo Reference.archive Reference.bare = InvalidExtents.
Proof.
  assert (H : Forall (fun item => hasGeometry (snd item) = false) Reference.bare)
    by (repeat constructor).
  split; [exact H |].
  apply (@measureMesh_without_geometry Reference.geo Reference.archive Reference.bare H).
Defined.

Lemma measureMesh_covers_vertices_witness :
  In Reference.coarse (collectNodes Reference.tree)
  /\ In (mkPoint3d 4 0 1) (@loadVertices Reference.archive Reference.coarse)
  /\ covers (@measureMesh Reference.geo Reference.archive Reference.tree)
       (project (@conv Reference.geo (mkPoint3d 4 0 1))).
Proof.
  assert (H1 : In Reference.coarse (collectNodes Reference.tree)) by (left; reflexivity).
  assert (H2 : In (mkPoint3d 4 0 1) (@loadVertices Reference.archive Reference.coarse))
    by (right; left; reflexivity).
  repeat split; auto;
    apply (@measureMesh_covers_vertices Reference.geo Reference.archive
             Reference.tree Reference.coarse (mkPoint3d 4 0 1) H1 H2).
Defined.

Lemma measureMesh_hollow_node_witness :
  In Reference.hollow (collectNodes Reference.hollowTree)
  /\ @loadVertices Reference.archive Reference.hollow = []
  /\ extents_eq (@measureMesh Reference.geo Reference.archive Reference.hollowTree)
       (mkExtents2 (mkPoint2d DBL_LOWEST DBL_LOWEST) (mkPoint2d DBL_MAX DBL_MAX)).
Proof.
  assert (H1 : In Reference.hollow (collectNodes Reference.hollowTree))
    by (right; left; reflexivity).
  split; [exact H1 | split; [reflexivity |]].
  apply (@measureMesh_hollow_node Reference.geo Reference.archive
           Reference.hollowTree Reference.hollow H1 eq_refl).
  intros node v [<- | [<- | []]] Hv.
  - destruct Hv as [<- | [<- | [<- | []]]]; split; split; vm_compute; discriminate.
  - destruct Hv.
Defined.

Lemma measureMesh_iteration_order_witness :
  Permutation Reference.tree (rev Reference.tree)
  /\ extents_eq (@measureMesh Reference.geo Reference.archive (rev Reference.tree))
       (@measureMesh Reference.geo Reference.archive Reference.tree).
Proof.
  assert (H : Permutation Reference.tree (rev Reference.tree)) by apply Permutation_rev.
  split; [exact H |].
  apply (@measureMesh_iteration_order Reference.geo Reference.archive _ _ H).
Defined.

(** ** remap: order and range *)

Lemma remap_monotone (sz c c' : Z) :
  0 <= sz -> c <= c' -> (remap sz c <= remap sz c')%Q.
Proof.
  intros Hs Hc. unfold remap.
  rewrite !(Qmult_comm (inject_Z sz)).
  apply Qmult_le_compat_r.
  - apply Qmult_le_compat_r.
    + rewrite <- Zle_Qle. exact Hc.
    + unfold Qle. cbn. lia.
  - replace 0%Q with (inject_Z 0) by reflexivity. rewrite <- Zle_Qle. exact Hs.
Qed.

Lemma remap_zero (sz : Z) : (remap sz 0 == 0)%Q.
Proof. unfold remap. field. Qed.

Lemma remap_full (sz : Z) : (remap sz 65535 == inject_Z sz)%Q.
Proof. unfold remap. field. Qed.

(** X6.  [remap] is monotone in the coordinate for an image of
    non-negative size, so a region whose corners are ordered and lie in
    [0, 65535] is mapped to ordered pixel extents inside the image
    [0, W] x [0, H], and its pixel size is not negative. *)
Theorem remapRegion_inside_image (W H : Z) (region : Region) :
  0 <= W -> 0 <= H ->
  0 <= pix (rll region) <= pix (rur region) -> pix (rur region) <= 65535 ->
  0 <= piy (rll region) <= piy (rur region) -> piy (rur region) <= 65535 ->
  let e := remapRegion (mkSize2 W H) region in
  (0 <= p2x (ll e) /\ p2x (ll e) <= p2x (ur e) /\ p2x (ur e) <= inject_Z W
   /\ 0 <= p2y (ll e) /\ p2y (ll e) <= p2y (ur e) /\ p2y (ur e) <= inject_Z H
   /\ 0 <= fwidth (size_of e) /\ 0 <= fheight (size_of e))%Q.
Proof.
  intros HW HH Hx Hx' Hy Hy' e. unfold e, remapRegion, size_of.
  cbn [ll ur p2x p2y width height fwidth fheight].
  pose proof (remap_monotone W 0 (pix (rll region)) HW (proj1 Hx)) as A1.
  pose proof (remap_monotone W _ _ HW (proj2 Hx)) as A2.
  pose proof (remap_monotone W _ 65535 HW Hx') as A3.
  pose proof (remap_monotone H 0 (piy (rll region)) HH (proj1 Hy)) as B1.
  pose proof (remap_monotone H _ _ HH (proj2 Hy)) as B2.
  pose proof (remap_monotone H _ 65535 HH Hy') as B3.
  rewrite remap_zero in A1, B1. rewrite remap_full in A3, B3.
  repeat split; try assumption; lra.
Qed.

Lemma remapRegion_inside_image_witness :
  let e := remapRegion (mkSize2 4 2) Reference.middle in
  (0 <= p2x (ll e) /\ p2x (ll e) <= p2x (ur e) /\ p2x (ur e) <= 4
   /\ 0 <= p2y (ll e) /\ p2y (ll e) <= p2y (ur e) /\ p2y (ur e) <= 2
   /\ 0 <= fwidth (size_of e) /\ 0 <= fheight (size_of e))%Q.
Proof.
  apply (remapRegion_inside_image 4 2 Reference.middle); cbn; lia.
Defined.

(** ** rebuild: what is left untouched *)

Section RebuildExtras.

Context {TX : Texturing}.

(** X8.  [rebuild] touches only the texture coordinates that a face
    references and the image ids: the vertices, the number of texture
    coordinates and every texture coordinate no face references are left as
    they were. *)
Theorem rebuild_leaves_rest_untouched (submesh sm : SubMesh) (tex : IStream)
    (otx : Mat) :
  rebuild submesh tex = Ok (sm, otx) ->
  vertices (mesh sm) = vertices (mesh submesh)
  /\ length (tCoords (mesh sm)) = length (tCoords (mesh submesh))
  /\ length (faces (mesh sm)) = length (faces (mesh submesh))
  /\ forall index,
       (forall face, In face (faces (mesh submesh)) -> uses face index = false) ->
       nth_error (tCoords (mesh sm)) index
       = nth_error (tCoords (mesh submesh)) index.
Proof.
  intro H. apply rebuild_frame in H.
  destruct H as (Hv & _ & tx & tcs & fs & patches & asize & _ & Hmesh & Ht & Hf & _).
  apply rebuildMesh_spec in Hmesh. destruct Hmesh as (Hfs & _ & Hlen & _ & Hspec).
  repeat split.
  - exact Hv.
  - congruence.
  - rewrite Hf, Hfs. apply length_map.
  - intros index Hunused. specialize (Hspec index).
    destruct (owner (faces (mesh submesh)) index) as [k |] eqn:Eo.
    + apply owner_In in Eo. destruct Eo as (face & HIn & Hu & _).
      rewrite (Hunused face HIn) in Hu. discriminate.
    + congruence.
Qed.

End RebuildExtras.

Lemma rebuild_leaves_rest_untouched_witness :
  exists sm otx,
    @rebuild Reference.texturing Reference.twoRegions Reference.image = Ok (sm, otx)
    /\ vertices (mesh sm) = vertices (mesh Reference.twoRegions)
    /\ length (tCoords (mesh sm)) = 6%nat.
Proof.
  destruct (@rebuild Reference.texturing Reference.twoRegions Reference.image)
    as [[sm otx] | f] eqn:E.
  - exists sm, otx. split; [reflexivity |].
    destruct (@rebuild_leaves_rest_untouched Reference.texturing Reference.twoRegions
                sm Reference.image otx E) as (H1 & H2 & _).
    split; assumption.
  - exfalso. vm_compute in E. discriminate E.
Defined.

(** ** rebuild: the UV footprint collected by the first pass *)

Lemma dmin_le (a b : Q) : (dmin a b <= a /\ dmin a b <= b)%Q.
Proof. unfold dmin. destruct (Qle_bool a b) eqn:E; q_hyps; split; lra. Qed.

Lemma dmax_ge (a b : Q) : (a <= dmax a b /\ b <= dmax a b)%Q.
Proof. unfold dmax. destruct (Qle_bool b a) eqn:E; q_hyps; split; lra. Qed.

Lemma covers_update_self (e : Extents2) (p : Point2d) : covers (update e p) p.
Proof.
  unfold covers, update; cbn [ll ur p2x p2y].
  pose proof (dmin_le (p2x (ll e)) (p2x p)). pose proof (dmin_le (p2y (ll e)) (p2y p)).
  pose proof (dmax_ge (p2x (ur e)) (p2x p)). pose proof (dmax_ge (p2y (ur e)) (p2y p)).
  intuition.
Qed.

Lemma covers_update_mono (e : Extents2) (p q : Point2d) :
  covers e p -> covers (update e q) p.
Proof.
  unfold covers, update; cbn [ll ur p2x p2y]. intros (H1 & H2 & H3 & H4).
  pose proof (dmin_le (p2x (ll e)) (p2x q)). pose proof (dmin_le (p2y (ll e)) (p2y q)).
  pose proof (dmax_ge (p2x (ur e)) (p2x q)). pose proof (dmax_ge (p2y (ur e)) (p2y q)).
  repeat split; lra.
Qed.

(** The UV patch of region [k] covers texture coordinate [j] in state [st]. *)
Local Abbreviation footprint st j k :=
  (exists e tc, nth_error (es_uvPatches st) k = Some e
                /\ nth_error (es_tCoords st) j = Some tc
                /\ covers e tc).

Lemma expand_footprint (k : nat) (rsize : Size2f) (index : nat) (st st' : ExpandState) :
  length (es_seen st) = length (es_tCoords st) ->
  expand k rsize index st = Ok st' ->
  length (es_seen st') = length (es_tCoords st')
  /\ (forall j, nth j (es_seen st') false = nth j (es_seen st) false || (index =? j)%nat)
  /\ (forall j k', nth j (es_seen st) false = true ->
                   footprint st j k' -> footprint st' j k')
  /\ (nth index (es_seen st) false = false -> footprint st' index k)
  /\ (forall k', k' <> k ->
                 nth_error (es_uvPatches st') k' = nth_error (es_uvPatches st) k').
Proof.
  intros Hlen H.
  destruct (expand_Ok _ _ _ _ _ H) as (Hvis & _).
  apply (visit_spec _ _ _ _ _ _ Hlen) in Hvis.
  destruct Hvis as (Hlt & Ls & Lt & S & T).
  unfold expand in H.
  apply bind_Ok in H. destruct H as (iseen & Hseen & H).
  apply at_Ok in Hseen.
  assert (Hnth : nth index (es_seen st) false = iseen)
    by (apply nth_error_nth; exact Hseen).
  split; [congruence | split; [exact S |]].
  destruct iseen.
  - inversion H; subst st'. repeat split; auto. congruence.
  - apply bind_Ok in H. destruct H as (tc0 & Htc & H). apply at_Ok in Htc.
    apply bind_Ok in H. destruct H as (tcs1 & _ & H).
    apply bind_Ok in H. destruct H as (uv & Huv & H). apply at_Ok in Huv.
    apply bind_Ok in H. destruct H as (uvs1 & Huvs & H).
    apply assign_Ok in Huvs. destruct Huvs as (Hk & ->).
    apply bind_Ok in H. destruct H as (seen1 & _ & H).
    assert (Huv' : es_uvPatches st'
                   = set_nth (es_uvPatches st) k (update uv (remapTc rsize tc0)))
      by (inversion H; reflexivity).
    clear H.
    assert (Htc' : nth_error (es_tCoords st') index = Some (remapTc rsize tc0)).
    { rewrite T, Hnth, Nat.eqb_refl, Htc. reflexivity. }
    repeat split.
    + intros j k' Hj (e & tc & He & Htcj & Hcov).
      assert (Hne : index <> j) by (intro E; subst j; congruence).
      assert (Htcj' : nth_error (es_tCoords st') j = Some tc).
      { rewrite T. destruct (Nat.eqb_spec index j); [contradiction |].
        now rewrite andb_false_r. }
      rewrite Huv', set_nth_lookup by exact Hk.
      destruct (Nat.eqb_spec k' k) as [-> | Hkk].
      * exists (update uv (remapTc rsize tc0)), tc.
        split; [reflexivity | split; [exact Htcj' |]].
        apply covers_update_mono. replace uv with e by congruence. exact Hcov.
      * exists e, tc. auto.
    + intros _. exists (update uv (remapTc rsize tc0)), (remapTc rsize tc0).
      split; [| split; [exact Htc' | apply covers_update_self]].
      rewrite Huv', set_nth_lookup by exact Hk. now rewrite Nat.eqb_refl.
    + intros k' Hkk. rewrite Huv', set_nth_lookup by exact Hk.
      destruct (Nat.eqb_spec k' k); [contradiction | reflexivity].
Qed.

Lemma expandFace_footprint (rgs : list Extents2) (face : Face) (st st' : ExpandState) :
  length (es_seen st) = length (es_tCoords st) ->
  expandFace rgs st face = Ok st' ->
  length (es_seen st') = length (es_tCoords st')
  /\ (forall j, nth j (es_seen st') false = nth j (es_seen st) false || uses face j)
  /\ (forall j k', nth j (es_seen st) false = true ->
                   footprint st j k' -> footprint st' j k')
  /\ (forall j, nth j (es_seen st) false = false -> uses face j = true ->
                footprint st' j (imageId face))
  /\ (forall k', k' <> imageId face ->
                 nth_error (es_uvPatches st') k' = nth_error (es_uvPatches st) k').
Proof.
  intros Hlen H. unfold expandFace in H.
  apply bind_Ok in H. destruct H as (region & _ & H).
  apply bind_Ok in H. destruct H as (uv & _ & H).
  apply bind_Ok in H. destruct H as (st1 & H1 & H).
  apply bind_Ok in H. destruct H as (st2 & H2 & H3).
  apply (expand_footprint _ _ _ _ _ Hlen) in H1.
  destruct H1 as (L1 & S1 & A1 & B1 & C1).
  apply (expand_footprint _ _ _ _ _ L1) in H2.
  destruct H2 as (L2 & S2 & A2 & B2 & C2).
  apply (expand_footprint _ _ _ _ _ L2) in H3.
  destruct H3 as (L3 & S3 & A3 & B3 & C3).
  split; [exact L3 | split; [| split; [| split]]].
  - intro j. rewrite S3, S2, S1. unfold uses. now rewrite !orb_assoc.
  - intros j k' Hj Hf. apply A3.
    + rewrite S2, S1, Hj. reflexivity.
    + apply A2; [rewrite S1, Hj; reflexivity |]. apply A1; assumption.
  - intros j Hj Hu. unfold uses in Hu.
    destruct (Nat.eqb_spec (ta face) j) as [Ea | Na].
    { subst j. apply A3; [rewrite S2, S1, Nat.eqb_refl; now rewrite orb_true_r |].
      apply A2; [rewrite S1, Nat.eqb_refl; now rewrite orb_true_r |].
      apply B1, Hj. }
    destruct (Nat.eqb_spec (tb face) j) as [Eb | Nb].
    { subst j. apply A3; [rewrite S2, Nat.eqb_refl; now rewrite orb_true_r |].
      apply B2. rewrite S1, Hj. cbn. now apply Nat.eqb_neq. }
    destruct (Nat.eqb_spec (tc face) j) as [Ec | Nc]; [| discriminate].
    subst j. apply B3. rewrite S2, S1, Hj. cbn.
    apply orb_false_iff. split; now apply Nat.eqb_neq.
  - intros k' Hk. rewrite (C3 k' Hk), (C2 k' Hk), (C1 k' Hk). reflexivity.
Qed.

Lemma foldM_expandFace_footprint (rgs : list Extents2) (fs : list Face) :
  forall st st' : ExpandState,
    length (es_seen st) = length (es_tCoords st) ->
    foldM (expandFace rgs) fs st = Ok st' ->
    (forall j k, nth j (es_seen st) false = true ->
                 footprint st j k -> footprint st' j k)
    /\ (forall j k, nth j (es_seen st) false = false -> owner fs j = Some k ->
                    footprint st' j k)
    /\ (forall k, (forall face, In face fs -> imageId face <> k) ->
                  nth_error (es_uvPatches st') k = nth_error (es_uvPatches st) k).
Proof.
  induction fs as [|face fs IH]; intros st st' Hlen H; cbn [foldM] in H.
  - inversion H; subst st'. repeat split; auto. intros j k _. discriminate.
  - apply bind_Ok in H. destruct H as (st1 & Hface & Hrest).
    apply (expandFace_footprint _ _ _ _ Hlen) in Hface.
    destruct Hface as (L1 & S1 & A1 & B1 & C1).
    destruct (IH _ _ L1 Hrest) as (A & B & C).
    split; [| split].
    + intros j k Hj Hf. apply A; [rewrite S1, Hj; reflexivity | now apply A1].
    + intros j k Hj Ho. cbn [owner] in Ho.
      destruct (uses face j) eqn:Hu.
      * inversion Ho; subst k.
        apply A; [rewrite S1, Hu; now rewrite orb_true_r | now apply B1].
      * apply B; [rewrite S1, Hj, Hu; reflexivity | exact Ho].
    + intros k Hk. rewrite C by (intros f Hf; apply Hk; now right).
      apply C1. intro E. apply (Hk face (or_introl eq_refl)). now symmetry.
Qed.

(** The UV patches left by the first pass. *)
Lemma expand_pass_footprint (txSize : Size2) (submesh : SubMesh) (st : ExpandState) :
  foldM (expandFace (map (remapRegion txSize) (regions submesh)))
    (faces (mesh submesh)) (expandStart submesh) = Ok st ->
  (forall index k,
     owner (faces (mesh submesh)) index = Some k ->
     exists e region tc0,
       nth_error (es_uvPatches st) k = Some e
       /\ nth_error (map (remapRegion txSize) (regions submesh)) k = Some region
       /\ nth_error (tCoords (mesh submesh)) index = Some tc0
       /\ nth_error (es_tCoords st) index = Some (remapTc (size_of region) tc0)
       /\ covers e (remapTc (size_of region) tc0))
  /\ (forall k,
        (k < length (regions submesh))%nat ->
        (forall face, In face (faces (mesh submesh)) -> imageId face <> k) ->
        nth_error (es_uvPatches st) k = Some InvalidExtents).
Proof.
  intro H.
  assert (Hlen : length (es_seen (expandStart submesh))
                 = length (es_tCoords (expandStart submesh)))
    by (cbn; apply repeat_length).
  destruct (foldM_expandFace_footprint _ _ _ _ Hlen H) as (_ & B & C).
  apply foldM_expandFace_Ok in H. destruct H as (Hvis & _).
  apply visitFaces_spec in Hvis; [| exact Hlen].
  destruct Hvis as (Hall & _ & _ & T).
  split.
  - intros index k Ho.
    destruct (B index k) as (e & tc & He & Htc & Hcov);
      [cbn; apply nth_repeat_false | exact Ho |].
    specialize (T index). cbn [expandStart es_seen es_tCoords] in T.
    rewrite nth_repeat_false, Ho in T.
    destruct (owner_In _ _ _ Ho) as (face & Hface & Hu & <-).
    rewrite Forall_forall in Hall. destruct (Hall face Hface) as (HF & La & Lb & Lc).
    unfold scaleOf in HF, T.
    destruct (nth_error (map (remapRegion txSize) (regions submesh)) (imageId face))
      as [region |]; [| now elim HF].
    cbn [option_map] in T.
    destruct (nth_error (tCoords (mesh submesh)) index) as [tc0 |] eqn:E0.
    + cbn in T. exists e, region, tc0.
      split; [exact He | split; [reflexivity | split; [reflexivity | split; [exact T |]]]].
      rewrite T in Htc. inversion Htc. subst tc. exact Hcov.
    + cbn in T. congruence.
  - intros k Hk Hnone. rewrite (C k Hnone). cbn [expandStart es_uvPatches].
    apply nth_error_repeat. exact Hk.
Qed.

Section Footprint.

Context {TX : Texturing}.

(** X9.  The patches [rebuild] hands to the packer are built from UV
    patches, one per region, such that the UV patch of a region covers
    every texture coordinate owned by a face of that region, scaled into
    the region's pixel space, while the UV patch of a region that no face
    references is still the invalid extents it was created with. *)
Theorem rebuild_uv_footprint (txSize : Size2) (submesh : SubMesh)
    (tcs : list Point2d) (fs : list Face) (patches : list Patch) (asize : Size2) :
  rebuildMesh txSize submesh = Ok (tcs, fs, patches, asize) ->
  exists uvPatches : list UvPatch,
    length uvPatches = length (regions submesh)
    /\ patches = map (packOne (map patchOfUv uvPatches)) (seq 0 (length uvPatches))
    /\ asize = packSize (map patchOfUv uvPatches)
    /\ (forall index k,
          owner (faces (mesh submesh)) index = Some k ->
          exists e region tc0,
            nth_error uvPatches k = Some e
            /\ nth_error (map (remapRegion txSize) (regions submesh)) k = Some region
            /\ nth_error (tCoords (mesh submesh)) index = Some tc0
            /\ covers e (remapTc (size_of region) tc0))
    /\ (forall k,
          (k < length (regions submesh))%nat ->
          (forall face, In face (faces (mesh submesh)) -> imageId face <> k) ->
          nth_error uvPatches k = Some InvalidExtents).
Proof.
  unfold rebuildMesh. fold (expandStart submesh). intro H.
  apply bind_Ok in H. destruct H as (st & Hexp & H).
  apply bind_Ok in H. destruct H as (((seen2, tcs2), fs2) & _ & H).
  inversion H; subst. clear H.
  exists (es_uvPatches st).
  destruct (expand_pass_footprint txSize submesh st Hexp) as (Hcov & Hnone).
  apply foldM_expandFace_Ok in Hexp. destruct Hexp as (_ & Luv).
  split; [| split; [| split; [| split]]].
  - etransitivity; [exact Luv | apply repeat_length].
  - now rewrite length_map.
  - reflexivity.
  - intros index k Ho. destruct (Hcov index k Ho) as (e & region & tc0 & H1 & H2 & H3 & _ & H5).
    exists e, region, tc0. auto.
  - exact Hnone.
Qed.

End Footprint.

Lemma rebuild_uv_footprint_witness :
  exists tcs fs patches asize,
    @rebuildMesh Reference.texturing (mkSize2 4 2) Reference.twoRegions
    = Ok (tcs, fs, patches, asize)
    /\ exists uvPatches e region tc0,
         patches = map (@packOne Reference.texturing
                          (map (@patchOfUv Reference.texturing) uvPatches))
                     (seq 0 (length uvPatches))
         /\ nth_error uvPatches 1 = Some e
         /\ nth_error (map (remapRegion (mkSize2 4 2)) (regions Reference.twoRegions)) 1
            = Some region
         /\ nth_error (tCoords (mesh Reference.twoRegions)) 4 = Some tc0
         /\ covers e (remapTc (size_of region) tc0).
Proof.
  destruct (@rebuildMesh Reference.texturing (mkSize2 4 2) Reference.twoRegions)
    as [[[[tcs fs] patches] asize] | f] eqn:E.
  - exists tcs, fs, patches, asize. split; [reflexivity |].
    destruct (@rebuild_uv_footprint Reference.texturing (mkSize2 4 2)
                Reference.twoRegions tcs fs patches asize E)
      as (uvPatches & _ & Hp & _ & Hcov & _).
    destruct (Hcov 4%nat 1%nat eq_refl) as (e & region & tc0 & H1 & H2 & H3 & H4).
    exists uvPatches, e, region, tc0. auto.
  - exfalso. vm_compute in E. discriminate E.
Defined.

(** ** The pixel copy: overlapping patches, locality, periodicity *)

Lemma lastSource_from (txSize asize : Size2) (rects : list (Rect * Rect)) (j i : Z)
    (acc : option (Z * Z)) :
  fold_left
    (fun acc r =>
       match sourceOf txSize asize (fst r) (snd r) j i with
       | Some s => Some s
       | None => acc
       end) rects acc
  = match lastSource txSize asize rects j i with
    | Some s => Some s
    | None => acc
    end.
Proof.
  unfold lastSource. revert acc. induction rects as [|r rects IH]; intro acc; cbn.
  - reflexivity.
  - rewrite IH. rewrite (IH (match sourceOf _ _ _ _ _ _ with Some s => Some s | None => None end)).
    destruct (fold_left _ rects None); [reflexivity |].
    destruct (sourceOf txSize asize (fst r) (snd r) j i); reflexivity.
Qed.

Lemma srcCoord_periodic (uv d extent x : Z) :
  0 < extent -> 0 <= x - (d - uv) ->
  srcCoord uv d extent (x + extent) = srcCoord uv d extent x.
Proof.
  intros He Hx. unfold srcCoord. f_equal.
  rewrite !Z.rem_mod_nonneg by lia.
  replace (x + extent - (d - uv)) with (x - (d - uv) + 1 * extent) by ring.
  apply Z_mod_plus_full.
Qed.

Lemma srcCoord_inside (uv d extent x : Z) :
  0 < extent -> 0 <= x - (d - uv) ->
  uv <= srcCoord uv d extent x < uv + extent.
Proof.
  intros He Hx. unfold srcCoord.
  pose proof (Z.rem_bound_pos (x - (d - uv)) extent Hx He). lia.
Qed.

Section CopyExtras.

Context {TX : Texturing}.

(** X10.  Where the destination rectangles of several patches overlap,
    the patch that comes last in patch order wins: after the pixel copy an
    atlas pixel holds the source pixel of the last patch that copies to it,
    and its previous value if no patch does. *)
Theorem copyPatches_last_patch_wins (tx : Mat) (txSize asize : Size2)
    (uvRects : list Rect) (patches : list Patch) (m m' : Mat) :
  copyPatches tx txSize asize uvRects patches m = Ok m' ->
  forall j i,
    data m' j i
    = match lastSource txSize asize (combine uvRects (map dst patches)) j i with
      | Some (jsrc, isrc) => data tx jsrc isrc
      | None => data m j i
      end.
Proof.
  unfold copyPatches. generalize (combine uvRects (map dst patches)). intro rects.
  revert m. induction rects as [|(uvRect, dstRect) rects IH]; intros m H j i;
    cbn [foldM] in H.
  - inversion H; subst. reflexivity.
  - apply bind_Ok in H. destruct H as (m1 & H1 & H).
    rewrite (IH _ H j i). apply copyRect_data in H1. destruct H1 as (_ & _ & D).
    unfold lastSource at 2. cbn [fold_left fst snd]. rewrite lastSource_from.
    destruct (lastSource txSize asize rects j i) as [(js, ic) |]; [reflexivity |].
    rewrite D. destruct (sourceOf txSize asize uvRect dstRect j i) as [(js, ic) |];
      reflexivity.
Qed.

End CopyExtras.

(** X11.  When the origin of the source rectangle is not negative and is a
    multiple of the rectangle's size on each axis, the copy reads the tiled
    source: every atlas pixel of the destination rectangle whose tiled
    source pixel (source origin plus offset modulo source size) lies in the
    source image receives exactly that pixel. *)
Theorem copyRect_aligned_is_tiled (tx : Mat) (txSize asize : Size2)
    (uvRect dstRect : Rect) (m m' : Mat) :
  0 < width (size uvRect) -> 0 < height (size uvRect) ->
  0 <= pix (point uvRect) -> 0 <= piy (point uvRect) ->
  pix (point uvRect) mod width (size uvRect) = 0 ->
  piy (point uvRect) mod height (size uvRect) = 0 ->
  copyRect tx txSize asize m (uvRect, dstRect) = Ok m' ->
  forall j i,
    piy (point dstRect) <= j < piy (point dstRect) + height (size dstRect) ->
    pix (point dstRect) <= i < pix (point dstRect) + width (size dstRect) ->
    0 <= j < height asize -> 0 <= i < width asize ->
    0 <= fst (tiledSource uvRect dstRect j i) < height txSize ->
    0 <= snd (tiledSource uvRect dstRect j i) < width txSize ->
    data m' j i
    = data tx (fst (tiledSource uvRect dstRect j i)) (snd (tiledSource uvRect dstRect j i)).
Proof.
  intros Hw Hh Hx Hy Ax Ay H j i Dj Di Aj Ai Sj Si.
  apply copyRect_data in H. destruct H as (_ & _ & D). rewrite D. clear D.
  unfold tiledSource in *. cbn [fst snd] in *.
  rewrite <- (srcCoord_aligned _ _ _ j Hh Hy (proj1 Dj) Ay) in *.
  rewrite <- (srcCoord_aligned _ _ _ i Hw Hx (proj1 Di) Ax) in *.
  unfold sourceOf.
  match goal with
  | |- context [if ?c then _ else _] => assert (E : c = true)
  end.
  { rewrite !andb_true_iff, !Z.leb_le, !Z.ltb_lt. lia. }
  rewrite E. reflexivity.
Qed.

(** X12.  For a source rectangle of positive size whose origin is not
    negative, the copy never reads outside that rectangle: every atlas
    pixel either keeps its value or receives a pixel of the source image
    that lies inside the source rectangle. *)
Theorem copyRect_reads_inside_source (tx : Mat) (txSize asize : Size2)
    (uvRect dstRect : Rect) (m m' : Mat) :
  0 < width (size uvRect) -> 0 < height (size uvRect) ->
  0 <= pix (point uvRect) -> 0 <= piy (point uvRect) ->
  copyRect tx txSize asize m (uvRect, dstRect) = Ok m' ->
  forall j i,
    data m' j i = data m j i
    \/ exists jsrc isrc,
         piy (point uvRect) <= jsrc < piy (point uvRect) + height (size uvRect)
         /\ pix (point uvRect) <= isrc < pix (point uvRect) + width (size uvRect)
         /\ 0 <= jsrc < height txSize /\ 0 <= isrc < width txSize
         /\ data m' j i = data tx jsrc isrc.
Proof.
  intros Hw Hh Hx Hy H j i.
  apply copyRect_data in H. destruct H as (_ & _ & D). rewrite D. clear D.
  destruct (sourceOf txSize asize uvRect dstRect j i) as [(js, ic) |] eqn:E;
    [right | now left].
  apply sourceOf_Some in E. destruct E as (_ & (Bj & Bi) & (Dj & Di) & -> & ->).
  eexists. eexists. repeat split; try reflexivity; try apply Bj; try apply Bi;
    apply srcCoord_inside; lia.
Qed.

(** X13.  The copy is periodic in the size of the source rectangle: two
    atlas pixels of the destination rectangle that lie one source width
    (or one source height) apart are copied from the same source pixel, so
    a destination larger than its source shows the source repeated. *)
Theorem copyRect_is_periodic (tx : Mat) (txSize asize : Size2)
    (uvRect dstRect : Rect) (m m' : Mat) :
  0 < width (size uvRect) -> 0 < height (size uvRect) ->
  0 <= pix (point uvRect) -> 0 <= piy (point uvRect) ->
  copyRect tx txSize asize m (uvRect, dstRect) = Ok m' ->
  forall j i s,
    sourceOf txSize asize uvRect dstRect j i = Some s ->
    (i + width (size uvRect) < pix (point dstRect) + width (size dstRect) ->
     i + width (size uvRect) < width asize ->
     sourceOf txSize asize uvRect dstRect j (i + width (size uvRect)) = Some s
     /\ data m' j (i + width (size uvRect)) = data m' j i)
    /\ (j + height (size uvRect) < piy (point dstRect) + height (size dstRect) ->
        j + height (size uvRect) < height asize ->
        sourceOf txSize asize uvRect dstRect (j + height (size uvRect)) i = Some s
        /\ data m' (j + height (size uvRect)) i = data m' j i).
Proof.
  intros Hw Hh Hx Hy H j i (js, ic) Hs.
  apply copyRect_data in H. destruct H as (_ & _ & D).
  pose proof (sourceOf_Some _ _ _ _ _ _ _ _ Hs)
    as ((Aj & Ai) & (Bj & Bi) & (Dj & Di) & Ej & Ei).
  split.
  - intros Hd Ha.
    assert (E : sourceOf txSize asize uvRect dstRect j (i + width (size uvRect))
                = Some (js, ic)).
    { unfold sourceOf. rewrite srcCoord_periodic by lia. rewrite <- Ej, <- Ei.
      match goal with
      | |- context [if ?c then _ else _] => assert (E : c = true)
      end.
      { rewrite !andb_true_iff, !Z.leb_le, !Z.ltb_lt. lia. }
      rewrite E. reflexivity. }
    split; [exact E |]. now rewrite !D, E, Hs.
  - intros Hd Ha.
    assert (E : sourceOf txSize asize uvRect dstRect (j + height (size uvRect)) i
                = Some (js, ic)).
    { unfold sourceOf. rewrite srcCoord_periodic by lia. rewrite <- Ej, <- Ei.
      match goal with
      | |- context [if ?c then _ else _] => assert (E : c = true)
      end.
      { rewrite !andb_true_iff, !Z.leb_le, !Z.ltb_lt. lia. }
      rewrite E. reflexivity. }
    split; [exact E |]. now rewrite !D, E, Hs.
Qed.

Lemma copyPatches_last_patch_wins_witness :
  exists m',
    @copyPatches Reference.texturing Reference.ramp (mkSize2 4 2) (mkSize2 1 1)
      [Reference.rectAt 0 0 1 1; Reference.rectAt 3 1 1 1]
      [Reference.mkRPatch (Reference.rectAt 0 0 1 1) (Reference.rectAt 0 0 1 1);
       Reference.mkRPatch (Reference.rectAt 0 0 1 1) (Reference.rectAt 0 0 1 1)]
      (mat_new 1 1 Vec3b_zero) = Ok m'
    /\ data m' 0 0 = (23, 23, 23).
Proof.
  destruct (@copyPatches Reference.texturing Reference.ramp (mkSize2 4 2) (mkSize2 1 1)
              [Reference.rectAt 0 0 1 1; Reference.rectAt 3 1 1 1]
              [Reference.mkRPatch (Reference.rectAt 0 0 1 1) (Reference.rectAt 0 0 1 1);
               Reference.mkRPatch (Reference.rectAt 0 0 1 1) (Reference.rectAt 0 0 1 1)]
              (mat_new 1 1 Vec3b_zero)) as [m' | f] eqn:E.
  - exists m'. split; [reflexivity |].
    rewrite (@copyPatches_last_patch_wins Reference.texturing _ _ _ _ _ _ _ E 0 0).
    reflexivity.
  - exfalso. vm_compute in E. discriminate E.
Defined.

Lemma copyRect_aligned_is_tiled_witness :
  exists m',
    copyRect Reference.ramp (mkSize2 4 2) (mkSize2 2 2) (mat_new 2 2 Vec3b_zero)
      (Reference.rectAt 2 0 2 2, Reference.rectAt 0 0 2 2) = Ok m'
    /\ data m' 1 1 = (23, 23, 23).
Proof.
  destruct (copyRect Reference.ramp (mkSize2 4 2) (mkSize2 2 2) (mat_new 2 2 Vec3b_zero)
              (Reference.rectAt 2 0 2 2, Reference.rectAt 0 0 2 2)) as [m' | f] eqn:E.
  - exists m'. split; [reflexivity |].
    rewrite (copyRect_aligned_is_tiled Reference.ramp (mkSize2 4 2) (mkSize2 2 2)
               (Reference.rectAt 2 0 2 2) (Reference.rectAt 0 0 2 2)
               (mat_new 2 2 Vec3b_zero) m');
      cbn; try lia; try reflexivity. exact E.
  - exfalso. vm_compute in E. discriminate E.
Defined.

Lemma copyRect_reads_inside_source_witness :
  exists m',
    copyRect Reference.ramp (mkSize2 4 2) (mkSize2 2 2) (mat_new 2 2 Vec3b_zero)
      (Reference.rectAt 1 0 2 2, Reference.rectAt 0 0 2 2) = Ok m'
    /\ (data m' 0 0 = Vec3b_zero
        \/ exists jsrc isrc,
             0 <= jsrc < 0 + 2 /\ 1 <= isrc < 1 + 2
             /\ 0 <= jsrc < 2 /\ 0 <= isrc < 4
             /\ data m' 0 0 = data Reference.ramp jsrc isrc).
Proof.
  destruct (copyRect Reference.ramp (mkSize2 4 2) (mkSize2 2 2) (mat_new 2 2 Vec3b_zero)
              (Reference.rectAt 1 0 2 2, Reference.rectAt 0 0 2 2)) as [m' | f] eqn:E.
  - exists m'. split; [reflexivity |].
    apply (copyRect_reads_inside_source Reference.ramp (mkSize2 4 2) (mkSize2 2 2)
             (Reference.rectAt 1 0 2 2) (Reference.rectAt 0 0 2 2)
             (mat_new 2 2 Vec3b_zero) m'); cbn; try lia. exact E.
  - exfalso. vm_compute in E. discriminate E.
Defined.

Lemma copyRect_is_periodic_witness :
  exists m',
    copyRect Reference.ramp (mkSize2 4 2) (mkSize2 4 2) (mat_new 2 4 Vec3b_zero)
      (Reference.rectAt 1 0 2 1, Reference.rectAt 0 0 4 2) = Ok m'
    /\ data m' 0 2 = data m' 0 0 /\ data m' 1 0 = data m' 0 0.
Proof.
  destruct (copyRect Reference.ramp (mkSize2 4 2) (mkSize2 4 2) (mat_new 2 4 Vec3b_zero)
              (Reference.rectAt 1 0 2 1, Reference.rectAt 0 0 4 2)) as [m' | f] eqn:E.
  - exists m'. split; [reflexivity |].
    destruct (copyRect_is_periodic Reference.ramp (mkSize2 4 2) (mkSize2 4 2)
                (Reference.rectAt 1 0 2 1) (Reference.rectAt 0 0 4 2)
                (mat_new 2 4 Vec3b_zero) m'
                ltac:(cbn; lia) ltac:(cbn; lia) ltac:(cbn; lia) ltac:(cbn; lia) E
                0 0 (0, 2) eq_refl) as (Hh & Hv).
    split; [apply Hh | apply Hv]; cbn; lia.
  - exfalso. vm_compute in E. discriminate E.
Defined.

(** ** write: what a completed run has emitted *)

Section WriteExtras.

Context {G : Geo} {AR : Archive} {TX : Texturing}.

Lemma writeSubMeshes_nth (ctr : Point2d) (node : Node) (submeshes : list SubMesh) :
  forall (k0 : nat) (outs : list Output),
    writeSubMeshes ctr node k0 submeshes = Ok outs ->
    length outs = length submeshes
    /\ forall k submesh,
         nth_error submeshes k = Some submesh ->
         exists out, nth_error outs k = Some out
                     /\ writeSubMesh ctr node (k0 + k) submesh = Ok out.
Proof.
  induction submeshes as [|sm sms IH]; intros k0 outs H; cbn [writeSubMeshes] in H.
  - inversion H. split; [reflexivity |]. intros [|k] submesh E; discriminate.
  - apply bind_Ok in H. destruct H as (o & Ho & H).
    apply bind_Ok in H. destruct H as (os & Hos & H).
    inversion H; subst outs. clear H.
    destruct (IH _ _ Hos) as (Hlen & Hnth). split; [cbn; congruence |].
    intros [|k] submesh E; cbn in E.
    + inversion E; subst submesh. exists o. rewrite Nat.add_0_r. auto.
    + destruct (Hnth k submesh E) as (out & H1 & H2). exists out.
      split; [exact H1 |]. now rewrite <- plus_n_Sm.
Qed.

Lemma writeSubMeshes_fault (ctr : Point2d) (node : Node) (submeshes : list SubMesh) :
  forall (k0 : nat) (f : fault),
    writeSubMeshes ctr node k0 submeshes = Fault f ->
    exists k submesh, nth_error submeshes k = Some submesh
                      /\ writeSubMesh ctr node (k0 + k) submesh = Fault f.
Proof.
  induction submeshes as [|sm sms IH]; intros k0 f H; cbn [writeSubMeshes] in H.
  - discriminate.
  - apply bind_fault in H. destruct H as [H | (o & _ & H)].
    + exists 0%nat, sm. rewrite Nat.add_0_r. auto.
    + apply bind_fault in H. destruct H as [H | (os & _ & H)]; [| discriminate].
      destruct (IH _ _ H) as (k & submesh & H1 & H2).
      exists (S k), submesh. split; [exact H1 |]. now rewrite <- plus_n_Sm.
Qed.

Lemma lastComponent_plain (name : string) :
  forall cur : string,
    plainName name = true -> lastComponent cur name = (cur ++ name)%string.
Proof.
  induction name as [|c name IH]; intros cur H; cbn in *.
  - induction cur as [|d cur IHc]; cbn; [reflexivity | now rewrite <- IHc].
  - apply andb_true_iff in H. destruct H as (Hc & Hn).
    destruct (Ascii.eqb c "/") eqn:E; [discriminate |].
    rewrite IH by exact Hn. clear.
    induction cur as [|d cur IHc]; cbn; [reflexivity | now rewrite IHc].
Qed.

Lemma lastComponent_separator (dir rest : string) :
  forall cur : string,
    lastComponent cur (dir ++ String "/" rest) = lastComponent EmptyString rest.
Proof.
  induction dir as [|c dir IH]; intro cur; cbn.
  - reflexivity.
  - destruct (Ascii.eqb c "/"); apply IH.
Qed.

(** [filename] drops the directory of a path. *)
Lemma filename_of_path (dir name : string) :
  plainName name = true -> filename (dir ++ String "/" name) = name.
Proof.
  intro H. unfold filename. rewrite lastComponent_separator.
  now rewrite lastComponent_plain.
Qed.

(** X14.  The files of the [k]-th submesh of a node are named after the
    node's [k]-th geometry reference: mesh [href.obj], material [href.mtl];
    the mesh file names the material file and the material file names the
    texture file, each by its file name without the directory; and the
    texture is either copied unchanged under the extension of the stored
    image (no regions; the mesh is the localized one) or rebuilt and written
    as [href.jpg] (regions present; the mesh is the one [rebuild] leaves, the
    texture being the [k]-th texture of the node). *)
Theorem writeNode_output_layout (ctr : Point2d) (node : Node) (outs : list Output) :
  writeNode ctr node = Ok outs ->
  length outs = length (loadGeometry node)
  /\ forall k submesh,
       nth_error (loadGeometry node) k = Some submesh ->
       exists out href,
         nth_error outs k = Some out
         /\ nth_error (geometryData node) k = Some href
         /\ meshPath out = (href ++ ".obj")%string
         /\ mtlPath out = (href ++ ".mtl")%string
         /\ objMtl out = filename (mtlPath out)
         /\ mtlTexture out = filename (texPath out)
         /\ (regions submesh = [] ->
             texPath out = (href ++ imageType (texture node k))%string
             /\ texFile out = Copied (texture node k)
             /\ objMesh out = localize ctr (mesh submesh))
         /\ (regions submesh <> [] ->
             texPath out = (href ++ ".jpg")%string
             /\ exists sm otx,
                  rebuild (mkSubMesh (localize ctr (mesh submesh)) (regions submesh))
                    (texture node k) = Ok (sm, otx)
                  /\ objMesh out = mesh sm /\ texFile out = Rebuilt otx).
Proof.
  unfold writeNode. intro H.
  destruct (writeSubMeshes_nth _ _ _ _ _ H) as (Hlen & Hnth).
  split; [exact Hlen |]. intros k submesh E.
  destruct (Hnth k submesh E) as (out & Hout & Hw). cbn [Nat.add] in Hw.
  unfold writeSubMesh in Hw.
  apply bind_Ok in Hw. destruct Hw as (href & Hhref & Hw). apply at_Ok in Hhref.
  exists out, href. split; [exact Hout | split; [exact Hhref |]].
  destruct (regions submesh) as [|r rs] eqn:Hr.
  - inversion Hw; subst out. cbn.
    split; [reflexivity | split; [reflexivity | split; [reflexivity |
      split; [reflexivity | split]]]].
    + intros _. repeat split.
    + intro Hn. now elim Hn.
  - apply bind_Ok in Hw. destruct Hw as ((sm & otx) & Hre & Hw).
    inversion Hw; subst out. cbn.
    split; [reflexivity | split; [reflexivity | split; [reflexivity |
      split; [reflexivity | split]]]].
    + discriminate.
    + intros _. split; [reflexivity |]. exists sm, otx. auto.
Qed.

(** X15.  A node with more submeshes than geometry references cannot be
    written: the walk over the references runs past their end. *)
Theorem writeNode_reference_overrun (ctr : Point2d) (node : Node) :
  (length (geometryData node) < length (loadGeometry node))%nat ->
  exists f, writeNode ctr node = Fault f.
Proof.
  intro Hlt. destruct (writeNode ctr node) as [outs | f] eqn:E; [| eauto].
  exfalso. unfold writeNode in E.
  destruct (writeSubMeshes_nth _ _ _ _ _ E) as (_ & Hnth).
  destruct (nth_error (loadGeometry node) (length (geometryData node)))
    as [submesh |] eqn:Es.
  - destruct (Hnth _ _ Es) as (out & _ & Hw). cbn [Nat.add] in Hw.
    unfold writeSubMesh in Hw. apply bind_Ok in Hw. destruct Hw as (href & Hhref & _).
    apply at_Ok in Hhref.
    assert (Hn : nth_error (geometryData node) (length (geometryData node)) = None)
      by (apply nth_error_None; lia).
    congruence.
  - apply nth_error_None in Es. lia.
Qed.

Lemma writeNodes_done (ctr : Point2d) (nodes : list Node) :
  forall outs,
    writeNodes ctr nodes = Ok outs ->
    Forall2 (fun node o => writeNode ctr node = Ok o) nodes outs.
Proof.
  induction nodes as [|node nodes IH]; intros outs H; cbn [writeNodes] in H.
  - inversion H. constructor.
  - apply bind_Ok in H. destruct H as (o & Ho & H).
    apply bind_Ok in H. destruct H as (os & Hos & H).
    inversion H; subst outs. constructor; [exact Ho | now apply IH].
Qed.

(** X16.  A run of [write] that completes has converted every node of the
    tree, whatever its level and whether it bears geometry or not, in the
    order of the tree, and all of them around the one center of the extents
    that [measureMesh] takes from the top level only. *)
Theorem write_converts_every_node (tree : Tree) (outs : list (list Output)) :
  write tree = Ok outs ->
  length outs = length tree
  /\ Forall2 (fun item o => writeNode (center (measureMesh tree)) (snd item) = Ok o)
       tree outs.
Proof.
  intro H. unfold write in H. cbv zeta in H.
  apply writeNodes_done in H.
  assert (F : Forall2 (fun item o =>
                writeNode (center (measureMesh tree)) (snd item) = Ok o) tree outs).
  { remember (center (measureMesh tree)) as ctr eqn:Hc. clear Hc.
    revert outs H. induction tree as [|item tree IH]; intros outs H; cbn [map] in H.
    - inversion H. constructor.
    - inversion H; subst. constructor; [assumption | now apply IH]. }
  split; [symmetry; apply (Forall2_length F) | exact F].
Qed.

Lemma writeSubMeshes_plain (ctr : Point2d) (node : Node) (submeshes : list SubMesh) :
  forall k0 : nat,
    Forall (fun submesh => regions submesh = []) submeshes ->
    (k0 + length submeshes <= length (geometryData node))%nat ->
    exists outs, writeSubMeshes ctr node k0 submeshes = Ok outs
                 /\ Forall (fun out => exists s, texFile out = Copied s) outs.
Proof.
  induction submeshes as [|sm sms IH]; intros k0 Hplain Hlen; cbn [writeSubMeshes].
  - eauto.
  - inversion Hplain as [| ? ? Hsm Hrest]; subst. cbn [length] in Hlen.
    unfold writeSubMesh at 1.
    destruct (at_lt (geometryData node) k0) as (href & ->); [lia |]. cbn [bind].
    rewrite Hsm. cbn [bind].
    destruct (IH (S k0) Hrest) as (os & -> & Hos); [lia |]. cbn [bind].
    eexists. split; [reflexivity |]. constructor; [cbn; eauto | exact Hos].
Qed.

(** X17.  A tree whose submeshes have no regions, each node having a
    geometry reference for each of its submeshes, is always written, and
    every texture is copied as it is: no image is decoded, whatever the
    codec would make of the texture streams. *)
Theorem write_without_regions (tree : Tree) :
  Forall (fun item =>
            Forall (fun submesh => regions submesh = []) (loadGeometry (snd item))
            /\ (length (loadGeometry (snd item)) <= length (geometryData (snd item)))%nat)
    tree ->
  exists outs,
    write tree = Ok outs
    /\ Forall (Forall (fun out => exists s, texFile out = Copied s)) outs.
Proof.
  intro Hplain. unfold write. cbv zeta.
  generalize (center (measureMesh tree)). intro ctr.
  induction Hplain as [| item tree (Hreg & Hlen) Hrest IH]; cbn [map writeNodes].
  - eauto.
  - unfold writeNode at 1.
    destruct (writeSubMeshes_plain ctr (snd item) (loadGeometry (snd item)) 0 Hreg)
      as (o & -> & Ho); [exact Hlen |]. cbn [bind].
    destruct IH as (os & -> & Hos). cbn [bind].
    eexists. split; [reflexivity |]. constructor; assumption.
Qed.

End WriteExtras.

Lemma writeNode_output_layout_witness :
  exists outs out href,
    @writeNode Reference.geo Reference.archive Reference.texturing (mkPoint2d 0 0)
      Reference.fine2 = Ok outs
    /\ length outs = 2%nat
    /\ nth_error outs 1 = Some out
    /\ nth_error (geometryData Reference.fine2) 1 = Some href
    /\ meshPath out = (href ++ ".obj")%string
    /\ texPath out = (href ++ ".jpg")%string
    /\ objMtl out = "1.mtl"%string
    /\ mtlTexture out = "1.jpg"%string.
Proof.
  destruct (@writeNode Reference.geo Reference.archive Reference.texturing
              (mkPoint2d 0 0) Reference.fine2) as [outs | f] eqn:E.
  - destruct (@writeNode_output_layout Reference.geo Reference.archive
                Reference.texturing (mkPoint2d 0 0) Reference.fine2 outs E)
      as (Hlen & Hnth).
    destruct (Hnth 1%nat Reference.oneRegion eq_refl)
      as (out & href & H1 & H2 & H3 & H4 & H5 & H6 & _ & H8).
    destruct (H8 ltac:(discriminate)) as (H9 & _).
    exists outs, out, href.
    split; [reflexivity | split; [exact Hlen | split; [exact H1 |
      split; [exact H2 | split; [exact H3 | split; [exact H9 | ]]]]]].
    rewrite H5, H6, H4, H9. cbn in H2. inversion H2. split; reflexivity.
  - exfalso. vm_compute in E. discriminate E.
Defined.

Lemma writeNode_reference_overrun_witness :
  (length (geometryData Reference.short)
   < length (@loadGeometry Reference.archive Reference.short))%nat
  /\ exists f,
       @writeNode Reference.geo Reference.archive Reference.texturing (mkPoint2d 0 0)
         Reference.short = Fault f.
Proof.
  assert (H : (length (geometryData Reference.short)
               < length (@loadGeometry Reference.archive Reference.short))%nat)
    by (cbn; lia).
  split; [exact H |].
  apply (@writeNode_reference_overrun Reference.geo Reference.archive
           Reference.texturing (mkPoint2d 0 0) Reference.short H).
Defined.

Lemma write_converts_every_node_witness :
  exists outs,
    @write Reference.geo Reference.archive Reference.texturing Reference.tree' = Ok outs
    /\ length outs = 5%nat
    /\ Forall2
         (fun item o =>
            @writeNode Reference.geo Reference.archive Reference.texturing
              (center (@measureMesh Reference.geo Reference.archive Reference.tree'))
              (snd item) = Ok o)
         Reference.tree' outs.
Proof.
  destruct (@write Reference.geo Reference.archive Reference.texturing Reference.tree')
    as [outs | f] eqn:E.
  - exists outs. split; [reflexivity |].
    apply (@write_converts_every_node Reference.geo Reference.archive
             Reference.texturing Reference.tree' outs E).
  - exfalso. vm_compute in E. discriminate E.
Defined.

Lemma write_without_regions_witness :
  exists outs,
    @write Reference.geo Reference.archive Reference.texturing Reference.plainTree
    = Ok outs
    /\ Forall (Forall (fun out => exists s, texFile out = Copied s)) outs.
Proof.
  apply (@write_without_regions Reference.geo Reference.archive Reference.texturing
           Reference.plainTree).
  repeat constructor; cbn; lia.
Defined.
